(** * Smooth: the per-connection HTTP / WebSocket engine

    A shallow embedding of
    [lib/smooth/application/network/http/HTTPServerClient.cpp]:
    the query decoder ([separate_request_parameters], [parse_url]), the
    outbound operation queue and its pump ([reply], [reply_error],
    [send_first_part], the [TransmitBufferEmptyEvent] handler) and the
    inbound dispatch ([http_event], [websocket_event]).

    The engine is single threaded and every event runs to completion, so
    each member function is a function from the state of the object before
    the call to its state after the call.  Calls into collaborators that
    live outside this translation unit (the socket, the transmit buffer,
    the request context, the WebSocket handler) are recorded in the state
    in the order in which they are made. *)

From Stdlib Require Import ZArith Ascii String List Bool Lia.
From Stdlib Require Import Numbers.DecimalString.
From stdpp Require Import gmap strings list fin_maps.
Import ListNotations.

(** ** Iterators over [std::string]

    An iterator into a string is represented by the range that extends
    from it to [end()]; [end()] itself is the empty range. *)

Module StdString.

(** [std::find(pos, end, c)]. *)
Fixpoint find (c : ascii) (pos : string) : string :=
  match pos with
  | EmptyString => EmptyString
  | String a rest => if Ascii.eqb a c then pos else find c rest
  end.

(** [it == end()]. *)
Definition at_end (it : string) : bool :=
  match it with
  | EmptyString => true
  | String _ _ => false
  end.

(** [++it]. *)
Definition next (it : string) : string :=
  match it with
  | EmptyString => EmptyString
  | String _ rest => rest
  end.

Fixpoint take (n : nat) (s : string) : string :=
  match n, s with
  | S n', String a rest => String a (take n' rest)
  | _, _ => EmptyString
  end.

(** [std::string(first, last)], for [last] reachable from [first]. *)
Definition range (first last : string) : string :=
  take (String.length first - String.length last) first.

(** [s.erase(pos, s.end())]. *)
Definition erase_from (s pos : string) : string := range s pos.

(** [c] does not occur in [s]. *)
Definition absent (c : ascii) (s : string) : Prop := find c s = EmptyString.

End StdString.

Import StdString.

(** ** Data model *)

(** [ResponseStatus], the result of [IResponseOperation::get_data]. *)
Inductive ResponseStatus : Type :=
| HasMoreData
| LastData
| EndOfData
| Error.

(** [HTTPServerClient::Mode]. *)
Inductive Mode : Type :=
| HTTP
| Websocket.

(** [HTTPMethod]. *)
Inductive HTTPMethod : Type :=
| GET
| POST
| PUT
| DELETE
| HEAD.

(** The header set of a response lives in the response object and this
    file changes it through two mutators only, whose bodies are elsewhere.
    A header set is represented by the mutator calls that built it, oldest
    first. *)
Inductive HeaderCall : Type :=
| AddHeader (key value : string)
| SetHeader (key value : string).

Definition Headers : Type := list HeaderCall.

(** An object behind [IResponseOperation].  [source max_size n] is what the
    [n]-th call of [get_data(max_size, data)] answers: the status and the
    bytes it appends to [data]; [calls] counts the calls made so far.
    [op_id] stands for the identity of the object. *)
Record IResponseOperation : Type := {
  op_id : nat;
  response_code : N;
  headers : Headers;
  source : nat -> nat -> ResponseStatus * list Byte.byte;
  calls : nat
}.

Definition get_response_code (op : IResponseOperation) : N := response_code op.

Definition get_headers (op : IResponseOperation) : Headers := headers op.

Definition with_headers (h : Headers) (op : IResponseOperation) : IResponseOperation :=
  {| op_id := op_id op; response_code := response_code op; headers := h;
     source := source op; calls := calls op |}.

Definition add_header (key value : string) (op : IResponseOperation) : IResponseOperation :=
  with_headers (headers op ++ [AddHeader key value]) op.

Definition set_header (key value : string) (op : IResponseOperation) : IResponseOperation :=
  with_headers (headers op ++ [SetHeader key value]) op.

(** [op->get_data(max_size, data)] on an empty [data]: the status, the
    bytes now in [data], and the object after the call. *)
Definition get_data (max_size : nat) (op : IResponseOperation)
  : ResponseStatus * list Byte.byte * IResponseOperation :=
  (source op max_size (calls op),
   {| op_id := op_id op; response_code := response_code op; headers := headers op;
      source := source op; calls := S (calls op) |}).

(** A packet as the protocol layer hands it over in a
    [DataAvailableEvent]: the accessors this file reads. *)
Record HTTPPacket : Type := {
  get_request_method : string;
  get_request_url : string;
  packet_headers : gmap string string;
  is_continuation : bool;
  is_continued : bool;
  get_buffer : list Byte.byte;
  (** [packet.data()] *)
  packet_data : list Byte.byte;
  ws_control_code : N
}.

(** A packet as this file builds it for the transmit buffer:
    [HTTPPacket{code, version, headers, data}] and [HTTPPacket{data}]. *)
Inductive TxPacket : Type :=
| ResponsePacket (code : N) (version : string) (hdrs : Headers) (data : list Byte.byte)
| DataPacket (data : list Byte.byte).

(** What a handler that is given [*this] may call while it runs. *)
Inductive Callback : Type :=
| Reply (response : IResponseOperation) (place_first : bool)
| ReplyError (response : IResponseOperation).

(** The arguments of [ws_server->data_received]. *)
Record DataReceived : Type := {
  ws_first_part : bool;
  ws_last_part : bool;
  ws_is_text : bool;
  ws_data : list Byte.byte
}.

(** ** Declarations that are not part of this translation unit *)

Class Collaborators : Type := {
  (** [URLEncoding::decode] on a range of characters: whether it succeeded
      and the characters the range holds afterwards. *)
  decode : string -> bool * string;
  (** [string_util::icontains]. *)
  icontains : string -> string -> bool;
  (** The bound passed to every [get_data]. *)
  content_chunk_size : nat;
  (** The duration type of the receive timeout of the socket: how many of
      its ticks make a second. *)
  ticks_per_second : Z;
  (** [DefaultKeepAlive], in these ticks. *)
  DefaultKeepAlive : Z;
  (** The numeric values of [WebsocketProtocol::OpCode]. *)
  OpCode_Text : N;
  OpCode_Close : N;
  OpCode_Ping : N;
  OpCode_Pong : N;
  (** [std::make_unique<regular::responses::StringResponse>(code)]. *)
  StringResponse : N -> IResponseOperation;
  (** [std::make_unique<WSResponse>(opcode)]. *)
  WSResponse : N -> IResponseOperation;
  (** The per-request MIME parser and its state after [reset()]. *)
  MIMEParser : Type;
  mime_reset : MIMEParser
}.

(** Modelled from the spec: the header names [CONNECTION] and [KEEP_ALIVE]
    are defined in a header that is not part of the sources; the
    specification writes the two headers as [Connection] and
    [Keep-Alive]. *)
Definition CONNECTION : string := "Connection".
Definition KEEP_ALIVE : string := "Keep-Alive".

(** Modelled from the spec: [ResponseCode::Method_Not_Allowed] is declared
    elsewhere; the specification gives it as 405. *)
Definition Method_Not_Allowed : N := 405%N.

(** [std::to_string] on a count of seconds. *)
Definition to_string (n : Z) : string := NilZero.string_of_int (Z.to_int n).

(** [duration_cast<seconds>(d).count()]: the ticks of [d] divided by the
    ticks of a second, rounded towards zero. *)
Definition duration_cast_seconds `{Collaborators} (d : Z) : Z :=
  Z.quot d ticks_per_second.

(** ** The engine *)

Section Engine.

Context `{Collaborators}.

(** The arguments of [context->handle], apart from the two references to
    [*this]. *)
Record HandleCall : Type := {
  h_method : HTTPMethod;
  h_url : string;
  h_headers : gmap string string;
  h_parameters : gmap string string;
  h_body : list Byte.byte;
  h_mime : MIMEParser;
  h_first_part : bool;
  h_last_part : bool
}.

(** A request context: from the arguments of [handle] to the state it
    leaves [mime] in and the calls it makes on [*this], in order. *)
Definition RequestHandler : Type := HandleCall -> MIMEParser * list Callback.

(** A WebSocket server: from the arguments of [data_received] to the calls
    it makes on the connection. *)
Definition WebsocketServer : Type := DataReceived -> list Callback.

(** The members of [HTTPServerClient] this file uses, those of the socket
    it owns, and the calls made on the collaborators, oldest first. *)
Record HTTPServerClient : Type := {
  mode : Mode;
  operations : list IResponseOperation;
  current_operation : option IResponseOperation;
  request_headers : gmap string string;
  request_parameters : gmap string string;
  requested_url : string;
  mime : MIMEParser;
  ws_server : option WebsocketServer;
  client_context : option RequestHandler;
  (** [socket->get_receive_timeout()], in ticks *)
  receive_timeout : Z;
  (** the packets given to [get_tx_buffer().put] *)
  tx_buffer : list TxPacket;
  (** whether [close()] was called *)
  closed : bool;
  (** the calls of [context->handle] *)
  handled : list HandleCall;
  (** the calls of [ws_server->data_received] *)
  received : list DataReceived
}.

Definition set_mode (m : Mode) (c : HTTPServerClient) : HTTPServerClient :=
  {| mode := m; operations := operations c;
     current_operation := current_operation c;
     request_headers := request_headers c;
     request_parameters := request_parameters c;
     requested_url := requested_url c; mime := mime c;
     ws_server := ws_server c; client_context := client_context c;
     receive_timeout := receive_timeout c; tx_buffer := tx_buffer c;
     closed := closed c; handled := handled c; received := received c |}.

Definition set_operations (q : list IResponseOperation) (c : HTTPServerClient)
  : HTTPServerClient :=
  {| mode := mode c; operations := q;
     current_operation := current_operation c;
     request_headers := request_headers c;
     request_parameters := request_parameters c;
     requested_url := requested_url c; mime := mime c;
     ws_server := ws_server c; client_context := client_context c;
     receive_timeout := receive_timeout c; tx_buffer := tx_buffer c;
     closed := closed c; handled := handled c; received := received c |}.

Definition set_current_operation (o : option IResponseOperation) (c : HTTPServerClient)
  : HTTPServerClient :=
  {| mode := mode c; operations := operations c;
     current_operation := o;
     request_headers := request_headers c;
     request_parameters := request_parameters c;
     requested_url := requested_url c; mime := mime c;
     ws_server := ws_server c; client_context := client_context c;
     receive_timeout := receive_timeout c; tx_buffer := tx_buffer c;
     closed := closed c; handled := handled c; received := received c |}.

Definition set_request (hdrs params : gmap string string) (url : string)
  (c : HTTPServerClient) : HTTPServerClient :=
  {| mode := mode c; operations := operations c;
     current_operation := current_operation c;
     request_headers := hdrs;
     request_parameters := params;
     requested_url := url; mime := mime c;
     ws_server := ws_server c; client_context := client_context c;
     receive_timeout := receive_timeout c; tx_buffer := tx_buffer c;
     closed := closed c; handled := handled c; received := received c |}.

Definition set_mime (m : MIMEParser) (c : HTTPServerClient) : HTTPServerClient :=
  {| mode := mode c; operations := operations c;
     current_operation := current_operation c;
     request_headers := request_headers c;
     request_parameters := request_parameters c;
     requested_url := requested_url c; mime := m;
     ws_server := ws_server c; client_context := client_context c;
     receive_timeout := receive_timeout c; tx_buffer := tx_buffer c;
     closed := closed c; handled := handled c; received := received c |}.

Definition set_ws_server (w : option WebsocketServer) (c : HTTPServerClient)
  : HTTPServerClient :=
  {| mode := mode c; operations := operations c;
     current_operation := current_operation c;
     request_headers := request_headers c;
     request_parameters := request_parameters c;
     requested_url := requested_url c; mime := mime c;
     ws_server := w; client_context := client_context c;
     receive_timeout := receive_timeout c; tx_buffer := tx_buffer c;
     closed := closed c; handled := handled c; received := received c |}.

(** [socket->set_receive_timeout(t)]. *)
Definition set_receive_timeout (t : Z) (c : HTTPServerClient) : HTTPServerClient :=
  {| mode := mode c; operations := operations c;
     current_operation := current_operation c;
     request_headers := request_headers c;
     request_parameters := request_parameters c;
     requested_url := requested_url c; mime := mime c;
     ws_server := ws_server c; client_context := client_context c;
     receive_timeout := t; tx_buffer := tx_buffer c;
     closed := closed c; handled := handled c; received := received c |}.

(** [get_buffers()->get_tx_buffer().put(p)]. *)
Definition tx_put (p : TxPacket) (c : HTTPServerClient) : HTTPServerClient :=
  {| mode := mode c; operations := operations c;
     current_operation := current_operation c;
     request_headers := request_headers c;
     request_parameters := request_parameters c;
     requested_url := requested_url c; mime := mime c;
     ws_server := ws_server c; client_context := client_context c;
     receive_timeout := receive_timeout c; tx_buffer := tx_buffer c ++ [p];
     closed := closed c; handled := handled c; received := received c |}.

(** [this->close()]. *)
Definition close (c : HTTPServerClient) : HTTPServerClient :=
  {| mode := mode c; operations := operations c;
     current_operation := current_operation c;
     request_headers := request_headers c;
     request_parameters := request_parameters c;
     requested_url := requested_url c; mime := mime c;
     ws_server := ws_server c; client_context := client_context c;
     receive_timeout := receive_timeout c; tx_buffer := tx_buffer c;
     closed := true; handled := handled c; received := received c |}.

Definition log_handle (a : HandleCall) (c : HTTPServerClient) : HTTPServerClient :=
  {| mode := mode c; operations := operations c;
     current_operation := current_operation c;
     request_headers := request_headers c;
     request_parameters := request_parameters c;
     requested_url := requested_url c; mime := mime c;
     ws_server := ws_server c; client_context := client_context c;
     receive_timeout := receive_timeout c; tx_buffer := tx_buffer c;
     closed := closed c; handled := handled c ++ [a]; received := received c |}.

Definition log_data_received (a : DataReceived) (c : HTTPServerClient)
  : HTTPServerClient :=
  {| mode := mode c; operations := operations c;
     current_operation := current_operation c;
     request_headers := request_headers c;
     request_parameters := request_parameters c;
     requested_url := requested_url c; mime := mime c;
     ws_server := ws_server c; client_context := client_context c;
     receive_timeout := receive_timeout c; tx_buffer := tx_buffer c;
     closed := closed c; handled := handled c; received := received c ++ [a] |}.

(** *** The query decoder *)

(** The [while (pos != url.end())] loop of [separate_request_parameters].
    Every turn moves [pos] past at least the ['='] it found, so the length
    of the range from [pos] bounds the number of turns; [parameters] starts
    the loop with that bound. *)
Fixpoint parameter_loop (turns : nat) (pos : string) (params : gmap string string)
  : gmap string string :=
  match turns with
  | O => params
  | S turns =>
      if at_end pos then params
      else
        let equal_sign := find "=" pos in
        if negb (at_end equal_sign) then
          let ampersand := find "&" equal_sign in
          let key := range pos equal_sign in
          let value := range (next equal_sign) ampersand in
          let params := <[key := value]> params in
          let ampersand := if negb (at_end ampersand) then next ampersand else ampersand in
          parameter_loop turns ampersand params
        else params
  end.

Definition parameters (pos : string) : gmap string string :=
  parameter_loop (String.length pos) pos ∅.

(** [HTTPServerClient::separate_request_parameters]: the string left in
    [url] and the map left in [request_parameters].  The range from the
    first ['?'] is decoded in place (the result of [decode] is not looked
    at), so the iterator [pos] then delimits what [decode] left there, and
    [pos++] steps over its first character. *)
Definition separate_request_parameters (url : string) : string * gmap string string :=
  let pos := find "?" url in
  let '(url, params) :=
    if negb (at_end pos) then
      let decoded := snd (decode pos) in
      let url := String.append (range url pos) decoded in
      let pos := next decoded in
      (url, parameters pos)
    else (url, ∅) in
  let pos := find "?" url in
  if negb (at_end pos) then (erase_from url pos, params) else (url, params).

(** [HTTPServerClient::parse_url]: the result, the string left in
    [raw_url], and [request_parameters]. *)
Definition parse_url (raw_url : string) : bool * string * gmap string string :=
  let '(raw_url, params) := separate_request_parameters raw_url in
  let '(res, raw_url) := decode raw_url in
  (res, raw_url, params).

(** *** The outbound queue and its pump *)

(** The packet [send_first_part] builds for the first chunk. *)
Definition first_part_packet (m : Mode) (op : IResponseOperation) (data : list Byte.byte)
  : TxPacket :=
  match m with
  | HTTP => ResponsePacket (get_response_code op) "1.1" (get_headers op) data
  | Websocket => DataPacket data
  end.

(** [HTTPServerClient::send_first_part], with [operations] as an argument:
    every call of the function on itself follows a [pop_front], so the
    recursion is on the queue.  [headers] is a reference into the
    operation, read when the packet is built. *)
Fixpoint send_first_part_of (queue : list IResponseOperation) (c : HTTPServerClient)
  : HTTPServerClient :=
  match queue with
  | [] => c
  | front :: rest =>
      let c := set_operations rest (set_current_operation (Some front) c) in
      let '(res, data, op) := get_data content_chunk_size front in
      let c := set_current_operation (Some op) c in
      match res with
      | Error => close c
      | _ =>
          let c := tx_put (first_part_packet (mode c) op data) c in
          match res with
          | EndOfData => send_first_part_of rest (set_current_operation None c)
          | _ => c
          end
      end
  end.

Definition send_first_part (c : HTTPServerClient) : HTTPServerClient :=
  send_first_part_of (operations c) c.

(** [HTTPServerClient::event(const TransmitBufferEmptyEvent&)]. *)
Definition event_TransmitBufferEmpty (c : HTTPServerClient) : HTTPServerClient :=
  match current_operation c with
  | Some op =>
      let '(res, data, op) := get_data content_chunk_size op in
      let c := set_current_operation (Some op) c in
      match res with
      | Error => close c
      | EndOfData => send_first_part (set_current_operation None c)
      | HasMoreData | LastData => tx_put (DataPacket data) c
      end
  | None => send_first_part c
  end.

(** The headers [reply] gives a response before it queues it. *)
Definition with_keep_alive (c : HTTPServerClient) (response : IResponseOperation)
  : IResponseOperation :=
  match mode c with
  | HTTP =>
      let timeout := duration_cast_seconds (receive_timeout c) in
      if (0 <? timeout)%Z then
        set_header KEEP_ALIVE (String.append "timeout=" (to_string timeout))
          (add_header CONNECTION "keep-alive" response)
      else response
  | Websocket => response
  end.

(** [HTTPServerClient::reply]. *)
Definition reply (response : IResponseOperation) (place_first : bool)
  (c : HTTPServerClient) : HTTPServerClient :=
  let response := with_keep_alive c response in
  let c :=
    if place_first then set_operations (response :: operations c) c
    else set_operations (operations c ++ [response]) c in
  match current_operation c with
  | None => send_first_part c
  | Some _ => c
  end.

(** [HTTPServerClient::reply_error]. *)
Definition reply_error (response : IResponseOperation) (c : HTTPServerClient)
  : HTTPServerClient :=
  let c := set_operations [] c in
  let response := add_header CONNECTION "close" response in
  let c := set_operations (operations c ++ [response]) c in
  match current_operation c with
  | None => send_first_part c
  | Some _ => c
  end.

(** [HTTPServerClient::reset_client]. *)
Definition reset_client (c : HTTPServerClient) : HTTPServerClient :=
  set_ws_server None (set_mode HTTP (set_current_operation None (set_operations [] c))).

(** [HTTPServerClient::connected]. *)
Definition connected (c : HTTPServerClient) : HTTPServerClient :=
  set_receive_timeout DefaultKeepAlive c.

(** [HTTPServerClient::disconnected]. *)
Definition disconnected (c : HTTPServerClient) : HTTPServerClient := c.

(** The calls a handler makes on the connection while it runs. *)
Definition run_callback (c : HTTPServerClient) (cb : Callback) : HTTPServerClient :=
  match cb with
  | Reply response place_first => reply response place_first c
  | ReplyError response => reply_error response c
  end.

Definition run_callbacks (cbs : list Callback) (c : HTTPServerClient)
  : HTTPServerClient :=
  fold_left run_callback cbs c.

(** *** Inbound dispatch *)

(** [HTTPServerClient::translate_method]: [None] for the result [false]. *)
Definition translate_method (packet : HTTPPacket) : option HTTPMethod :=
  if String.eqb (get_request_method packet) "POST" then Some POST
  else if String.eqb (get_request_method packet) "GET" then Some GET
  else if String.eqb (get_request_method packet) "DELETE" then Some DELETE
  else if String.eqb (get_request_method packet) "HEAD" then Some HEAD
  else if String.eqb (get_request_method packet) "PUT" then Some PUT
  else None.

(** The string [translate_method] compares with for each method. *)
Definition method_name (m : HTTPMethod) : string :=
  match m with
  | GET => "GET"
  | POST => "POST"
  | PUT => "PUT"
  | DELETE => "DELETE"
  | HEAD => "HEAD"
  end.

(** [HTTPServerClient::set_keep_alive]. *)
Definition set_keep_alive (c : HTTPServerClient) : HTTPServerClient :=
  match request_headers c !! "connection" with
  | Some s =>
      if icontains s "keep-alive" then set_receive_timeout DefaultKeepAlive c
      else c
  | None => c
  end.

(** The [if (first_packet)] block of [http_event]: the result of
    [parse_url] and the connection after the block. *)
Definition first_packet_block (packet : HTTPPacket) (c : HTTPServerClient)
  : bool * HTTPServerClient :=
  let '(res, url, params) := parse_url (get_request_url packet) in
  let c := set_request (packet_headers packet) params url c in
  let c := set_keep_alive c in
  (res, set_mime mime_reset c).

(** The [if (res)] block of [http_event]. *)
Definition dispatch (packet : HTTPPacket) (first_packet last_packet : bool)
  (c : HTTPServerClient) : HTTPServerClient :=
  match client_context c with
  | Some context =>
      match translate_method packet with
      | Some method =>
          let call :=
            {| h_method := method; h_url := requested_url c;
               h_headers := request_headers c;
               h_parameters := request_parameters c;
               h_body := get_buffer packet; h_mime := mime c;
               h_first_part := first_packet; h_last_part := last_packet |} in
          let '(m, cbs) := context call in
          run_callbacks cbs (set_mime m (log_handle call c))
      | None => reply (StringResponse Method_Not_Allowed) false c
      end
  | None => c
  end.

(** [HTTPServerClient::http_event]; the event holds the packet that
    [event.get] delivers, if it delivers one. *)
Definition http_event (event : option HTTPPacket) (c : HTTPServerClient)
  : HTTPServerClient :=
  match event with
  | Some packet =>
      let first_packet := negb (is_continuation packet) in
      let last_packet := negb (is_continued packet) in
      let '(res, c) :=
        if first_packet then first_packet_block packet c else (true, c) in
      if res then dispatch packet first_packet last_packet c else c
  | None => c
  end.

(** [HTTPServerClient::websocket_event]. *)
Definition websocket_event (event : option HTTPPacket) (c : HTTPServerClient)
  : HTTPServerClient :=
  match event with
  | Some packet =>
      let ws_op := ws_control_code packet in
      if (OpCode_Close <=? ws_op)%N then
        if (ws_op =? OpCode_Close)%N then close c
        else if (ws_op =? OpCode_Ping)%N then reply (WSResponse OpCode_Pong) true c
        else c
      else
        match ws_server c with
        | Some server =>
            let first_part := negb (is_continuation packet) in
            let last_part := negb (is_continued packet) in
            let call :=
              {| ws_first_part := first_part; ws_last_part := last_part;
                 ws_is_text := (ws_control_code packet =? OpCode_Text)%N;
                 ws_data := packet_data packet |} in
            run_callbacks (server call) (log_data_received call c)
        | None => c
        end
  | None => c
  end.

(** [HTTPServerClient::event(const DataAvailableEvent<HTTPProtocol>&)]. *)
Definition event_DataAvailable (event : option HTTPPacket) (c : HTTPServerClient)
  : HTTPServerClient :=
  match mode c with
  | HTTP => http_event event c
  | Websocket => websocket_event event c
  end.

End Engine.

(** ** A percent decoder and sample collaborators *)

Definition hex_digit (a : ascii) : option nat :=
  let n := nat_of_ascii a in
  if (48 <=? n)%nat && (n <=? 57)%nat then Some (n - 48)
  else if (65 <=? n)%nat && (n <=? 70)%nat then Some (n - 55)
  else if (97 <=? n)%nat && (n <=? 102)%nat then Some (n - 87)
  else None.

(** Modelled from the spec: [URLEncoding::decode] is not part of the
    sources.  The specification has it percent-decode its input and fail
    on a malformed escape sequence: a ['%'] followed by two hexadecimal
    digits becomes the character with that code, any other character is
    kept, and a ['%'] that is not followed by two hexadecimal digits is a
    failure (the text decoded up to there is what is left). *)
Fixpoint percent_decode (s : string) : bool * string :=
  match s with
  | EmptyString => (true, EmptyString)
  | String "%" (String h (String l rest)) =>
      match hex_digit h, hex_digit l with
      | Some a, Some b =>
          let '(ok, r) := percent_decode rest in
          (ok, String (ascii_of_nat (16 * a + b)) r)
      | _, _ => (false, EmptyString)
      end
  | String "%" _ => (false, EmptyString)
  | String a rest =>
      let '(ok, r) := percent_decode rest in (ok, String a r)
  end.

Definition lower (a : ascii) : ascii :=
  let n := nat_of_ascii a in
  if (65 <=? n)%nat && (n <=? 90)%nat then ascii_of_nat (n + 32) else a.

Fixpoint lowercase (s : string) : string :=
  match s with
  | EmptyString => EmptyString
  | String a rest => String (lower a) (lowercase rest)
  end.

Fixpoint contains (s t : string) : bool :=
  String.prefix t s ||
  match s with
  | EmptyString => false
  | String _ rest => contains rest t
  end.

(** A response that completes on its first [get_data] with the given
    bytes. *)
Definition single_chunk (id : nat) (code : N) (data : list Byte.byte)
  : IResponseOperation :=
  {| op_id := id; response_code := code; headers := [];
     source := fun _ n => match n with O => (EndOfData, data) | _ => (EndOfData, []) end;
     calls := 0 |}.

(** Collaborators to evaluate the engine with: the percent decoder above,
    a case-insensitive substring test, durations in milliseconds, the
    opcode values of RFC 6455, and responses without a body. *)
Definition sample : Collaborators :=
  {| decode := percent_decode;
     icontains := fun s t => contains (lowercase s) (lowercase t);
     content_chunk_size := 1024;
     ticks_per_second := 1000;
     DefaultKeepAlive := 5000;
     OpCode_Text := 1;
     OpCode_Close := 8;
     OpCode_Ping := 9;
     OpCode_Pong := 10;
     StringResponse := fun code => single_chunk 0 code [];
     WSResponse := fun opcode => single_chunk 0 0 [];
     MIMEParser := unit;
     mime_reset := tt |}.

Section Samples.

#[local] Existing Instance sample.

(** A response that answers [HasMoreData] on its first [n] calls of
    [get_data] and [EndOfData] on the calls after them. *)
Definition streaming (id : nat) (code : N) (n : nat) (data : list Byte.byte)
  : IResponseOperation :=
  {| op_id := id; response_code := code; headers := [];
     source := fun _ k => if (k <? n)%nat then (HasMoreData, data) else (EndOfData, []);
     calls := 0 |}.

(** A response whose [get_data] reports an error. *)
Definition failing (id : nat) : IResponseOperation :=
  {| op_id := id; response_code := 500; headers := [];
     source := fun _ _ => (Error, []);
     calls := 0 |}.

(** A connection in HTTP mode with nothing queued, nothing attached and a
    receive timeout of thirty seconds (30000 ticks of a millisecond). *)
Definition idle_client : HTTPServerClient :=
  {| mode := HTTP; operations := []; current_operation := None;
     request_headers := ∅; request_parameters := ∅;
     requested_url := EmptyString; mime := tt;
     ws_server := None; client_context := None;
     receive_timeout := 30000; tx_buffer := []; closed := false;
     handled := []; received := [] |}.

(** The same connection while it streams a response of two chunks. *)
Definition busy_client : HTTPServerClient :=
  reply (streaming 9 200 1 [Byte.x2a]) false idle_client.

Definition R1 : IResponseOperation := single_chunk 1 200 [Byte.x31].
Definition R2 : IResponseOperation := single_chunk 2 200 [Byte.x32].
Definition R3 : IResponseOperation := single_chunk 3 200 [Byte.x33].

(** A request context that answers every request with its body. *)
Definition echo_context : RequestHandler :=
  fun call => (tt, [Reply (single_chunk 7 200 (h_body call)) false]).

Definition with_context (c : HTTPServerClient) : HTTPServerClient :=
  {| mode := mode c; operations := operations c;
     current_operation := current_operation c;
     request_headers := request_headers c;
     request_parameters := request_parameters c;
     requested_url := requested_url c; mime := mime c;
     ws_server := ws_server c; client_context := Some echo_context;
     receive_timeout := receive_timeout c; tx_buffer := tx_buffer c;
     closed := closed c; handled := handled c; received := received c |}.

(** A connection in WebSocket mode with a server that only listens. *)
Definition websocket_client : HTTPServerClient :=
  set_ws_server (Some (fun _ => [])) (set_mode Websocket idle_client).

Definition request (method url : string) : HTTPPacket :=
  {| get_request_method := method; get_request_url := url;
     packet_headers := ∅; is_continuation := false; is_continued := false;
     get_buffer := [Byte.x68; Byte.x69]; packet_data := [Byte.x68; Byte.x69];
     ws_control_code := 0 |}.

Definition frame (opcode : N) : HTTPPacket :=
  {| get_request_method := EmptyString; get_request_url := EmptyString;
     packet_headers := ∅; is_continuation := false; is_continued := false;
     get_buffer := []; packet_data := [Byte.x68; Byte.x69];
     ws_control_code := opcode |}.

End Samples.

(** ** The query decoder as the specification words it *)

(** The pieces of [s] between the occurrences of [c]. *)
Fixpoint split_on (c : ascii) (s : string) : list string :=
  match s with
  | EmptyString => [EmptyString]
  | String a rest =>
      if Ascii.eqb a c then EmptyString :: split_on c rest
      else
        match split_on c rest with
        | piece :: pieces => String a piece :: pieces
        | [] => [String a EmptyString]
        end
  end.

(** The pieces put together again, with [c] between them. *)
Fixpoint join_on (c : ascii) (pieces : list string) : string :=
  match pieces with
  | [] => EmptyString
  | [piece] => piece
  | piece :: rest => String.append piece (String c (join_on c rest))
  end.

Definition has_equal_sign (item : string) : bool := negb (at_end (find "=" item)).

(** A pair split on its first ['=']. *)
Definition key_of (item : string) : string := range item (find "=" item).
Definition value_of (item : string) : string := next (find "=" item).

(** One candidate pair assigned into the parameters: a pair with no ['=']
    is discarded. *)
Definition assign_pair (params : gmap string string) (item : string)
  : gmap string string :=
  if has_equal_sign item then <[key_of item := value_of item]> params else params.

(** The parameters of a decoded query as the specification has them:
    split on ['&'], then every pair split on its first ['=']. *)
Definition spec_parameters (decoded : string) : gmap string string :=
  fold_left assign_pair (split_on "&" decoded) ∅.

(** Pairs in which no pair without ['='] comes before a pair with one. *)
Fixpoint keyed_then_bare (pairs : list string) : bool :=
  match pairs with
  | [] => true
  | item :: rest =>
      if has_equal_sign item then keyed_then_bare rest
      else forallb (fun q => negb (has_equal_sign q)) rest
  end.

(** What the loop of [separate_request_parameters] makes of the pairs: a
    pair with no ['='] is carried over, with the ['&'] that ends it, to the
    front of the key of the next pair that has one. *)
Fixpoint assign_carrying (carried : string) (pairs : list string)
  (params : gmap string string) : gmap string string :=
  match pairs with
  | [] => params
  | item :: rest =>
      if has_equal_sign item then
        assign_carrying EmptyString rest
          (<[String.append carried (key_of item) := value_of item]> params)
      else
        assign_carrying (String.append carried (String.append item "&")) rest params
  end.

(** ** Runs of the pump *)

(** What the queue and its pump leave alone: everything but [operations],
    [current_operation], the transmit buffer and the closing of the
    connection. *)
Definition besides_pump `{Collaborators} (c : HTTPServerClient) :=
  (mode c, request_headers c, request_parameters c, requested_url c, mime c,
   ws_server c, client_context c, receive_timeout c, handled c, received c).

(** [n] consecutive [TransmitBufferEmptyEvent]s. *)
Definition pump `{Collaborators} (n : nat) (c : HTTPServerClient) : HTTPServerClient :=
  Nat.iter n event_TransmitBufferEmpty c.

(** The operation in progress followed by the queue is what remains of the
    line [line] of operations (given by identity) after some of them are
    done; with no operation in progress the queue is empty. *)
Definition served_in_order `{Collaborators} (line : list nat) (c : HTTPServerClient)
  : Prop :=
  match current_operation c with
  | Some op => exists k, op_id op :: map op_id (operations c) = drop k line
  | None => operations c = []
  end.

(** ** Runs of the engine *)

(** An operation is in progress or nothing waits in the queue. *)
Definition settled `{Collaborators} (c : HTTPServerClient) : Prop :=
  current_operation c = None -> operations c = [].

Definition is_data_packet (p : TxPacket) : bool :=
  match p with
  | DataPacket _ => true
  | ResponsePacket _ _ _ _ => false
  end.

(** From [c] to [c']: the mode, the request context and the WebSocket
    server are the same, a closed connection is still closed, and the
    transmit buffer has only gained packets, which in WebSocket mode are
    packets without a status line. *)
Definition carries_on `{Collaborators} (c c' : HTTPServerClient) : Prop :=
  mode c' = mode c
  /\ client_context c' = client_context c
  /\ ws_server c' = ws_server c
  /\ (closed c = true -> closed c' = true)
  /\ exists more,
       tx_buffer c' = tx_buffer c ++ more
       /\ (mode c = Websocket -> forallb is_data_packet more = true).

(** What reaches the object between two resets: the events of the socket
    and the calls of [reply] and [reply_error] from outside a handler. *)
Inductive Event : Type :=
| DataAvailable (event : option HTTPPacket)
| TransmitBufferEmpty
| Connected
| Disconnected
| Call (cb : Callback).

Definition handle_event `{Collaborators} (c : HTTPServerClient) (e : Event)
  : HTTPServerClient :=
  match e with
  | DataAvailable event => event_DataAvailable event c
  | TransmitBufferEmpty => event_TransmitBufferEmpty c
  | Connected => connected c
  | Disconnected => disconnected c
  | Call cb => run_callback c cb
  end.

Definition run `{Collaborators} (events : list Event) (c : HTTPServerClient)
  : HTTPServerClient :=
  fold_left handle_event events c.

(** The operation after [n] more calls of [get_data], and what the [k]-th
    of the calls to come answers. *)
Definition after_calls (n : nat) (op : IResponseOperation) : IResponseOperation :=
  {| op_id := op_id op; response_code := response_code op; headers := headers op;
     source := source op; calls := n + calls op |}.

Definition chunk `{Collaborators} (op : IResponseOperation) (k : nat)
  : ResponseStatus * list Byte.byte :=
  source op content_chunk_size (k + calls op).

(** The next [get_data] of the operation reports [EndOfData]. *)
Definition completes_at_once `{Collaborators} (op : IResponseOperation) : Prop :=
  fst (chunk op 0) = EndOfData.

(** The packet [send_first_part] puts for each of the operations. *)
Definition first_packets `{Collaborators} (m : Mode) (ops : list IResponseOperation)
  : list TxPacket :=
  map (fun op => first_part_packet m (after_calls 1 op) (snd (chunk op 0))) ops.

(** A query written out: [key=value] for every entry, with ['&'] between
    the entries. *)
Definition render_pair (kv : string * string) : string :=
  String.append (fst kv) (String "=" (snd kv)).

Definition render_query (kvs : list (string * string)) : string :=
  join_on "&" (map render_pair kvs).

(** The entries assigned one after the other. *)
Definition assign_all (kvs : list (string * string)) : gmap string string :=
  fold_left (fun params kv => <[fst kv := snd kv]> params) kvs ∅.

(** ** What a run of the pump sends *)

(** The operation reports [HasMoreData] or [LastData] on its next [k] calls
    of [get_data] and [EndOfData] on the call after them. *)
Definition finishes_after `{Collaborators} (op : IResponseOperation) (k : nat) : Prop :=
  (forall j, j < k -> fst (chunk op j) = HasMoreData \/ fst (chunk op j) = LastData)
  /\ fst (chunk op k) = EndOfData.

(** The packets an operation in progress gives on its next [k] calls: one
    for each call, without status line and headers. *)
Definition remaining `{Collaborators} (op : IResponseOperation) (k : nat)
  : list TxPacket :=
  map (fun j => DataPacket (snd (chunk op j))) (seq 0 k).

(** The packets a queued operation that finishes after [k] calls gives from
    the moment it is started: the first packet, built by [send_first_part]
    from the first call, and one packet for each of the calls after it that
    report data. *)
Definition transmission `{Collaborators} (m : Mode) (op : IResponseOperation) (k : nat)
  : list TxPacket :=
  first_part_packet m (after_calls 1 op) (snd (chunk op 0))
  :: map (fun j => DataPacket (snd (chunk op j))) (seq 1 (k - 1)).

(** The transmissions of queued operations, each with the number of calls
    it finishes after, one after the other. *)
Definition plan `{Collaborators} (m : Mode) (jobs : list (IResponseOperation * nat))
  : list TxPacket :=
  flat_map (fun job => transmission m (fst job) (snd job)) jobs.

(** Under [TransmitBufferEmptyEvent]s the connection [c] brings the transmit
    buffer to [full] and no further: after any number of events the buffer
    is a beginning of [full], and from some number of events on it is
    [full], with the queue empty and no operation in progress. *)
Definition transmits `{Collaborators} (c : HTTPServerClient) (full : list TxPacket)
  : Prop :=
  (forall n, exists more, full = tx_buffer (pump n c) ++ more)
  /\ exists N, forall n,
       N <= n ->
       tx_buffer (pump n c) = full
       /\ operations (pump n c) = []
       /\ current_operation (pump n c) = None.

(** * Properties *)

(** ** Strings and iterators *)

Lemma find_length c s : String.length (find c s) <= String.length s.
Proof.
  induction s as [|a s IH]; simpl; [lia|].
  destruct (Ascii.eqb a c); simpl; lia.
Qed.

Lemma find_head c s :
  at_end (find c s) = false -> exists r, find c s = String c r.
Proof.
  induction s as [|a s IH]; simpl; [discriminate|].
  destruct (Ascii.eqb a c) eqn:E; [|exact IH].
  intros _. apply Ascii.eqb_eq in E. subst a. eauto.
Qed.

Lemma take_all s : take (String.length s) s = s.
Proof. induction s as [|a s IH]; simpl; congruence. Qed.

Lemma append_cons a s t :
  String.append (String a s) t = String a (String.append s t).
Proof. reflexivity. Qed.

Lemma append_nil t : String.append EmptyString t = t.
Proof. reflexivity. Qed.

Lemma take_app s t : take (String.length s) (String.append s t) = s.
Proof.
  induction s as [|a s IH]; [destruct t; reflexivity|].
  rewrite append_cons. simpl. f_equal. exact IH.
Qed.

Lemma length_app s t :
  String.length (String.append s t) = String.length s + String.length t.
Proof.
  induction s as [|a s IH]; [reflexivity|].
  rewrite append_cons. simpl. f_equal. exact IH.
Qed.

Lemma range_app s t : range (String.append s t) t = s.
Proof.
  unfold range. rewrite length_app.
  replace (String.length s + String.length t - String.length t)
    with (String.length s) by lia.
  apply take_app.
Qed.

Lemma range_end s : range s EmptyString = s.
Proof. unfold range. simpl. rewrite Nat.sub_0_r. apply take_all. Qed.

Lemma range_here s : range s s = EmptyString.
Proof. unfold range. rewrite Nat.sub_diag. reflexivity. Qed.

Lemma range_step a s last :
  String.length last <= String.length s ->
  range (String a s) last = String a (range s last).
Proof.
  intros Hle. unfold range.
  replace (String.length (String a s) - String.length last)
    with (S (String.length s - String.length last)) by (simpl; lia).
  reflexivity.
Qed.

(** Everything before the iterator returned by [find], followed by the
    range the iterator delimits, is the string searched. *)
Lemma range_find c s : String.append (range s (find c s)) (find c s) = s.
Proof.
  induction s as [|a s IH]; [reflexivity|].
  simpl. destruct (Ascii.eqb a c) eqn:E.
  - rewrite range_here. reflexivity.
  - rewrite range_step by apply find_length.
    rewrite append_cons. f_equal. exact IH.
Qed.

Lemma find_app_absent c s t : absent c s -> find c (String.append s t) = find c t.
Proof.
  unfold absent. induction s as [|a s IH]; [reflexivity|].
  rewrite append_cons. simpl.
  destruct (Ascii.eqb a c); [discriminate|exact IH].
Qed.

Lemma absent_range_find c s : absent c (range s (find c s)).
Proof.
  unfold absent. induction s as [|a s IH]; [reflexivity|].
  simpl. destruct (Ascii.eqb a c) eqn:E.
  - rewrite range_here. reflexivity.
  - rewrite range_step by apply find_length.
    simpl. rewrite E. exact IH.
Qed.

Lemma append_assoc s t u :
  String.append (String.append s t) u = String.append s (String.append t u).
Proof.
  induction s as [|a s IH]; [reflexivity|].
  rewrite !append_cons. f_equal. exact IH.
Qed.

Lemma append_empty_r s : String.append s EmptyString = s.
Proof.
  induction s as [|a s IH]; [reflexivity|].
  rewrite append_cons. f_equal. exact IH.
Qed.

Lemma at_end_app s t : at_end s = false -> at_end (String.append s t) = false.
Proof. destruct s; [discriminate|reflexivity]. Qed.

Lemma next_app s t :
  at_end s = false -> next (String.append s t) = String.append (next s) t.
Proof. destruct s; [discriminate|reflexivity]. Qed.

Lemma find_app_present c s t :
  at_end (find c s) = false ->
  find c (String.append s t) = String.append (find c s) t.
Proof.
  induction s as [|a s IH]; [discriminate|].
  rewrite append_cons. simpl.
  destruct (Ascii.eqb a c); [reflexivity|exact IH].
Qed.

Lemma absent_app c s t : absent c s -> absent c t -> absent c (String.append s t).
Proof.
  intros Hs Ht. unfold absent. rewrite find_app_absent by exact Hs. exact Ht.
Qed.

Lemma absent_cons c a s : absent c (String a s) -> a <> c /\ absent c s.
Proof.
  unfold absent. simpl. destruct (Ascii.eqb a c) eqn:E; [discriminate|].
  intros Hs. split; [|exact Hs]. intros ->. rewrite Ascii.eqb_refl in E. discriminate.
Qed.

(** A character that does not occur in a string does not occur behind an
    iterator into it. *)
Lemma absent_find c d s : absent c s -> absent c (find d s).
Proof.
  induction s as [|a s IH]; [reflexivity|].
  intros Hs. simpl. destruct (Ascii.eqb a d); [exact Hs|].
  apply IH. apply (absent_cons _ _ _ Hs).
Qed.

Lemma absent_next c s : absent c s -> absent c (next s).
Proof.
  destruct s as [|a s]; [reflexivity|].
  intros Hs. apply (absent_cons _ _ _ Hs).
Qed.

Lemma at_end_absent c s : at_end (find c s) = true -> absent c s.
Proof. unfold absent. destruct (find c s); [reflexivity|discriminate]. Qed.

Lemma range_app_l s t last :
  String.length last <= String.length t ->
  range (String.append s t) last = String.append s (range t last).
Proof.
  intros Hle. induction s as [|a s IH]; [reflexivity|].
  rewrite !append_cons. rewrite range_step by (rewrite length_app; lia).
  f_equal. exact IH.
Qed.

Lemma take_app_le k s t :
  k <= String.length s -> take k (String.append s t) = take k s.
Proof.
  revert k. induction s as [|a s IH]; intros k Hk.
  - simpl in Hk. assert (k = 0) by lia. subst. destruct t; reflexivity.
  - destruct k as [|k]; [reflexivity|].
    rewrite append_cons. simpl. f_equal. apply IH. simpl in Hk. lia.
Qed.

Lemma range_app_r s t last :
  String.length last <= String.length s ->
  range (String.append s t) (String.append last t) = range s last.
Proof.
  intros Hle. unfold range. rewrite !length_app.
  replace (String.length s + String.length t - (String.length last + String.length t))
    with (String.length s - String.length last) by lia.
  apply take_app_le. lia.
Qed.

Lemma split_on_absent c s : Forall (absent c) (split_on c s).
Proof.
  induction s as [|a s IH]; simpl.
  - constructor; [reflexivity|constructor].
  - destruct (Ascii.eqb a c) eqn:E.
    + constructor; [reflexivity|exact IH].
    + destruct (split_on c s) as [|piece pieces].
      * constructor; [|constructor]. unfold absent. simpl. rewrite E. reflexivity.
      * inversion IH; subst. constructor; [|assumption].
        unfold absent. simpl. rewrite E. assumption.
Qed.

Lemma split_on_nonempty c s : split_on c s <> [].
Proof.
  destruct s as [|a s]; simpl; [discriminate|].
  destruct (Ascii.eqb a c); [discriminate|].
  destruct (split_on c s); discriminate.
Qed.

Lemma join_on_cons c piece rest :
  rest <> [] -> join_on c (piece :: rest) = String.append piece (String c (join_on c rest)).
Proof. destruct rest; [congruence|reflexivity]. Qed.

Lemma join_split c s : join_on c (split_on c s) = s.
Proof.
  induction s as [|a s IH]; [reflexivity|].
  simpl. destruct (Ascii.eqb a c) eqn:E.
  - apply Ascii.eqb_eq in E. subst a.
    rewrite join_on_cons by apply split_on_nonempty.
    rewrite append_nil. f_equal. exact IH.
  - pose proof (split_on_nonempty c s) as Hne.
    destruct (split_on c s) as [|piece pieces]; [congruence|].
    destruct pieces as [|q pieces].
    + simpl in *. congruence.
    + rewrite join_on_cons in * by discriminate.
      rewrite append_cons. f_equal. exact IH.
Qed.

Lemma parameter_loop_end turns params : parameter_loop turns EmptyString params = params.
Proof. destruct turns; reflexivity. Qed.

Lemma parameter_loop_absent turns pos params :
  absent "=" pos -> parameter_loop turns pos params = params.
Proof.
  intros Ha. destruct turns; [reflexivity|]. simpl.
  destruct (at_end pos); [reflexivity|]. rewrite Ha. reflexivity.
Qed.

Lemma parameter_loop_step turns pos params :
  at_end (find "=" pos) = false ->
  parameter_loop (S turns) pos params
  = parameter_loop turns
      (if negb (at_end (find "&" (find "=" pos))) then next (find "&" (find "=" pos))
       else find "&" (find "=" pos))
      (<[range pos (find "=" pos) := range (next (find "=" pos)) (find "&" (find "=" pos))]> params).
Proof.
  intros He. simpl.
  destruct pos as [|a pos]; [discriminate|]. 
  cbn [at_end]. rewrite He. reflexivity.
Qed.

Lemma has_equal_sign_true item : has_equal_sign item = true -> at_end (find "=" item) = false.
Proof. unfold has_equal_sign. destruct (at_end _); [discriminate|reflexivity]. Qed.

Lemma has_equal_sign_false item : has_equal_sign item = false -> absent "=" item.
Proof.
  unfold has_equal_sign. intros Hf. apply at_end_absent.
  destruct (at_end _); [reflexivity|discriminate].
Qed.

Lemma parameter_loop_pieces pieces :
  Forall (absent "&") pieces ->
  forall carried params turns,
    absent "=" carried ->
    String.length (String.append carried (join_on "&" pieces)) <= turns ->
    parameter_loop turns (String.append carried (join_on "&" pieces)) params
    = assign_carrying carried pieces params.
Proof.
  induction pieces as [|item rest IH]; intros Hamp carried params turns Hc Hlen.
  - simpl. rewrite append_empty_r. apply parameter_loop_absent. exact Hc.
  - inversion Hamp as [|? ? Hitem Hrest]; subst.
    cbn [assign_carrying].
    destruct (has_equal_sign item) eqn:Heq.
    + apply has_equal_sign_true in Heq.
      destruct rest as [|item' rest].
      * cbn [join_on] in *.
        destruct turns as [|turns].
        { rewrite length_app in Hlen.
          destruct item; [discriminate|]. simpl in Hlen. lia. }
        rewrite parameter_loop_step
          by (rewrite find_app_absent by exact Hc; exact Heq).
        rewrite find_app_absent by exact Hc.
        assert (Hnone : find "&" (find "=" item) = EmptyString)
          by (apply absent_find; exact Hitem).
        rewrite Hnone. cbn [at_end negb].
        rewrite parameter_loop_end. cbn [assign_carrying].
        rewrite range_app_l by apply find_length.
        rewrite range_end. reflexivity.
      * rewrite join_on_cons in * by discriminate.
        set (J := join_on "&" (item' :: rest)) in *.
        destruct turns as [|turns].
        { rewrite !length_app in Hlen.
          destruct item; [discriminate|]. simpl in Hlen. lia. }
        assert (Hfind : find "=" (String.append carried (String.append item (String "&" J)))
                        = String.append (find "=" item) (String "&" J)).
        { rewrite find_app_absent by exact Hc. apply find_app_present. exact Heq. }
        rewrite parameter_loop_step by (rewrite Hfind; apply at_end_app; exact Heq).
        rewrite Hfind.
        assert (Hamp' : find "&" (String.append (find "=" item) (String "&" J)) = String "&" J).
        { rewrite find_app_absent by (apply absent_find; exact Hitem). reflexivity. }
        rewrite Hamp'. cbn [at_end negb next].
        rewrite next_app by exact Heq. rewrite range_app.
        rewrite range_app_l
          by (rewrite !length_app; pose proof (find_length "=" item); lia).
        rewrite range_app_r by apply find_length.
        rewrite <- (append_nil J) at 1.
        apply IH; [exact Hrest|reflexivity|].
        rewrite append_nil. rewrite !length_app in Hlen. simpl in Hlen. lia.
    + apply has_equal_sign_false in Heq.
      destruct rest as [|item' rest].
      * cbn [join_on assign_carrying].
        apply parameter_loop_absent. apply absent_app; assumption.
      * rewrite join_on_cons in * by discriminate.
        set (J := join_on "&" (item' :: rest)) in *.
        replace (String.append carried (String.append item (String "&" J)))
          with (String.append (String.append carried (String.append item "&")) J)
          in *
          by (rewrite !append_assoc; reflexivity).
        apply IH; [exact Hrest| |exact Hlen].
        apply absent_app; [exact Hc|]. apply absent_app; [exact Heq|reflexivity].
Qed.

Lemma parameters_pairs decoded :
  parameters decoded = assign_carrying EmptyString (split_on "&" decoded) ∅.
Proof.
  unfold parameters.
  rewrite <- (join_split "&" decoded) at 1 2.
  rewrite <- (append_nil (join_on "&" (split_on "&" decoded))).
  apply parameter_loop_pieces; [apply split_on_absent|reflexivity|].
  rewrite append_nil, !join_split. lia.
Qed.

Lemma assign_carrying_bare pairs : forall carried params,
  forallb (fun q => negb (has_equal_sign q)) pairs = true ->
  assign_carrying carried pairs params = params.
Proof.
  induction pairs as [|item rest IH]; intros carried params Hb; [reflexivity|].
  simpl in Hb. apply andb_prop in Hb as [Hi Hr].
  cbn [assign_carrying]. destruct (has_equal_sign item); [discriminate|].
  apply IH. exact Hr.
Qed.

Lemma assign_pair_bare pairs : forall params,
  forallb (fun q => negb (has_equal_sign q)) pairs = true ->
  fold_left assign_pair pairs params = params.
Proof.
  induction pairs as [|item rest IH]; intros params Hb; [reflexivity|].
  simpl in Hb. apply andb_prop in Hb as [Hi Hr].
  cbn [fold_left]. unfold assign_pair at 2. destruct (has_equal_sign item); [discriminate|].
  apply IH. exact Hr.
Qed.

Lemma assign_carrying_keyed pairs : forall params,
  keyed_then_bare pairs = true ->
  assign_carrying EmptyString pairs params = fold_left assign_pair pairs params.
Proof.
  induction pairs as [|item rest IH]; intros params Hk; [reflexivity|].
  cbn [assign_carrying fold_left keyed_then_bare] in *.
  unfold assign_pair at 2.
  destruct (has_equal_sign item).
  - rewrite append_nil. apply IH. exact Hk.
  - rewrite assign_carrying_bare, assign_pair_bare by exact Hk. reflexivity.
Qed.

(** ** The query decoder *)

Section QueryFacts.

Context `{Collaborators}.

Lemma separate_request_parameters_query path query decoded :
  absent "?" path ->
  snd (decode (String "?" query)) = String "?" decoded ->
  separate_request_parameters (String.append path (String "?" query))
  = (path, parameters decoded).
Proof.
  intros Hp Hd. unfold separate_request_parameters.
  rewrite find_app_absent by exact Hp. cbn [find Ascii.eqb Bool.eqb at_end negb].
  rewrite Hd. rewrite range_app. cbn [next].
  rewrite find_app_absent by exact Hp. cbn [find Ascii.eqb Bool.eqb at_end negb].
  unfold erase_from. rewrite range_app. reflexivity.
Qed.

Lemma separate_request_parameters_plain url :
  absent "?" url -> separate_request_parameters url = (url, ∅).
Proof.
  intros Hp. unfold separate_request_parameters.
  rewrite Hp. cbn [at_end negb]. rewrite Hp. reflexivity.
Qed.

End QueryFacts.

Lemma fold_assign_pair_other pairs k : forall params,
  Forall (fun q => has_equal_sign q = true -> key_of q <> k) pairs ->
  fold_left assign_pair pairs params !! k = params !! k.
Proof.
  induction pairs as [|item rest IH]; intros params Hall; [reflexivity|].
  inversion Hall as [|? ? Hitem Hrest]; subst.
  cbn [fold_left]. rewrite IH by exact Hrest.
  unfold assign_pair. destruct (has_equal_sign item); [|reflexivity].
  apply lookup_insert_ne. apply Hitem. reflexivity.
Qed.

(** Last write wins: the value of a key is that of the last pair with the
    key. *)
Lemma spec_parameters_last decoded front item back :
  split_on "&" decoded = front ++ item :: back ->
  has_equal_sign item = true ->
  Forall (fun q => has_equal_sign q = true -> key_of q <> key_of item) back ->
  spec_parameters decoded !! key_of item = Some (value_of item).
Proof.
  intros Hsplit Hitem Hback. unfold spec_parameters. rewrite Hsplit.
  rewrite fold_left_app. cbn [fold_left].
  rewrite fold_assign_pair_other by exact Hback.
  unfold assign_pair. rewrite Hitem. apply lookup_insert_eq.
Qed.

(** ** The queue and its pump *)

Section PumpFacts.

Context `{Collaborators}.

Lemma get_data_op_id max op res data op' :
  get_data max op = (res, data, op') ->
  op_id op' = op_id op /\ response_code op' = response_code op /\ headers op' = headers op.
Proof. unfold get_data. destruct (source op max (calls op)). intros [= _ _ <-]. auto. Qed.

Lemma send_first_part_nil c : operations c = [] -> send_first_part c = c.
Proof. unfold send_first_part. intros ->. reflexivity. Qed.

(** One step of [send_first_part] on a non-empty queue. *)
Lemma send_first_part_cons c front rest res data op :
  operations c = front :: rest ->
  get_data content_chunk_size front = (res, data, op) ->
  send_first_part c =
    match res with
    | Error => close (set_current_operation (Some op) (set_operations rest c))
    | EndOfData =>
        send_first_part
          (set_current_operation None
             (tx_put (first_part_packet (mode c) op data) (set_operations rest c)))
    | HasMoreData | LastData =>
        tx_put (first_part_packet (mode c) op data)
          (set_current_operation (Some op) (set_operations rest c))
    end.
Proof.
  unfold send_first_part. intros -> Hg. cbn [send_first_part_of].
  rewrite Hg. destruct res; reflexivity.
Qed.

Lemma besides_pump_send_first_part_of queue : forall c,
  besides_pump (send_first_part_of queue c) = besides_pump c.
Proof.
  induction queue as [|front rest IH]; intros c; [reflexivity|].
  cbn [send_first_part_of].
  destruct (get_data content_chunk_size front) as [[res data] op].
  destruct res; try reflexivity.
  rewrite IH. reflexivity.
Qed.

Lemma besides_pump_send_first_part c :
  besides_pump (send_first_part c) = besides_pump c.
Proof. apply besides_pump_send_first_part_of. Qed.

Lemma besides_pump_reply response place_first c :
  besides_pump (reply response place_first c) = besides_pump c.
Proof.
  unfold reply. destruct place_first; cbn [current_operation set_operations];
    destruct (current_operation c); try reflexivity;
    rewrite besides_pump_send_first_part; reflexivity.
Qed.

Lemma besides_pump_reply_error response c :
  besides_pump (reply_error response c) = besides_pump c.
Proof.
  unfold reply_error. cbn [current_operation set_operations].
  destruct (current_operation c); try reflexivity.
  rewrite besides_pump_send_first_part. reflexivity.
Qed.

Lemma besides_pump_run_callbacks cbs : forall c,
  besides_pump (run_callbacks cbs c) = besides_pump c.
Proof.
  unfold run_callbacks.
  induction cbs as [|cb cbs IH]; intros c; [reflexivity|].
  cbn [fold_left]. rewrite IH. destruct cb; cbn [run_callback].
  - apply besides_pump_reply.
  - apply besides_pump_reply_error.
Qed.

Lemma besides_pump_handled c c' :
  besides_pump c' = besides_pump c -> handled c' = handled c.
Proof. unfold besides_pump. intros [= ]. assumption. Qed.

Lemma besides_pump_received c c' :
  besides_pump c' = besides_pump c -> received c' = received c.
Proof. unfold besides_pump. intros [= ]. assumption. Qed.

(** The pump only appends to the transmit buffer. *)
Lemma tx_buffer_send_first_part_of queue : forall c,
  exists more, tx_buffer (send_first_part_of queue c) = tx_buffer c ++ more.
Proof.
  induction queue as [|front rest IH]; intros c.
  - exists []. cbn. rewrite app_nil_r. reflexivity.
  - cbn [send_first_part_of].
    destruct (get_data content_chunk_size front) as [[res data] op].
    destruct res.
    + eexists. reflexivity.
    + eexists. reflexivity.
    + match goal with |- context [send_first_part_of rest ?c'] =>
        destruct (IH c') as [more Hm]; rewrite Hm end.
      cbn. rewrite <- app_assoc. eexists. reflexivity.
    + exists []. cbn. rewrite app_nil_r. reflexivity.
Qed.

(** When [send_first_part] returns, an operation is in progress or the
    queue is empty. *)
Lemma send_first_part_of_settled queue : forall c,
  operations c = queue ->
  current_operation c = None ->
  current_operation (send_first_part_of queue c) = None ->
  operations (send_first_part_of queue c) = [].
Proof.
  induction queue as [|front rest IH]; intros c Hq Hc; [intros _; exact Hq|].
  cbn [send_first_part_of].
  destruct (get_data content_chunk_size front) as [[res data] op].
  destruct res; try discriminate.
  apply IH; reflexivity.
Qed.

Lemma drop_tail {A} k (line : list A) x rest :
  drop k line = x :: rest -> drop (S k) line = rest.
Proof.
  intros Hd. replace (S k) with (k + 1) by lia.
  rewrite <- drop_drop, Hd. reflexivity.
Qed.

Lemma served_send_first_part_of line queue : forall c,
  operations c = queue ->
  current_operation c = None ->
  (exists k, map op_id queue = drop k line) ->
  served_in_order line (send_first_part_of queue c).
Proof.
  induction queue as [|front rest IH]; intros c Hq Hc [k Hk].
  - unfold served_in_order. cbn. rewrite Hc. exact Hq.
  - cbn [send_first_part_of].
    destruct (get_data content_chunk_size front) as [[res data] op] eqn:Hg.
    apply get_data_op_id in Hg as (Hid & _ & _).
    destruct res.
    + unfold served_in_order. cbn. exists k. rewrite Hid. exact Hk.
    + unfold served_in_order. cbn. exists k. rewrite Hid. exact Hk.
    + apply IH; [reflexivity|reflexivity|].
      exists (S k). symmetry. eapply drop_tail. symmetry. exact Hk.
    + unfold served_in_order. cbn. exists k. rewrite Hid. exact Hk.
Qed.

Lemma served_event line c :
  served_in_order line c -> served_in_order line (event_TransmitBufferEmpty c).
Proof.
  unfold event_TransmitBufferEmpty. intros Hs.
  destruct (current_operation c) as [cur|] eqn:Hc.
  - unfold served_in_order in Hs. rewrite Hc in Hs. destruct Hs as [k Hk].
    destruct (get_data content_chunk_size cur) as [[res data] op] eqn:Hg.
    apply get_data_op_id in Hg as (Hid & _ & _).
    destruct res.
    + unfold served_in_order. cbn. exists k. rewrite Hid. exact Hk.
    + unfold served_in_order. cbn. exists k. rewrite Hid. exact Hk.
    + apply served_send_first_part_of; [reflexivity|reflexivity|].
      exists (S k). symmetry. eapply drop_tail. symmetry. exact Hk.
    + unfold served_in_order. cbn. exists k. rewrite Hid. exact Hk.
  - unfold served_in_order in Hs. rewrite Hc in Hs.
    rewrite send_first_part_nil by exact Hs.
    unfold served_in_order. rewrite Hc. exact Hs.
Qed.

Lemma served_pump line n : forall c,
  served_in_order line c -> served_in_order line (pump n c).
Proof.
  induction n as [|n IH]; intros c Hs; [exact Hs|].
  unfold pump in *. cbn [Nat.iter]. apply served_event. apply IH. exact Hs.
Qed.

Lemma with_keep_alive_op_id c response : op_id (with_keep_alive c response) = op_id response.
Proof.
  unfold with_keep_alive. destruct (mode c); [|reflexivity].
  destruct (0 <? _)%Z; reflexivity.
Qed.

Lemma reply_busy response place_first c busy :
  current_operation c = Some busy ->
  reply response place_first c
  = set_operations
      (if place_first then with_keep_alive c response :: operations c
       else operations c ++ [with_keep_alive c response]) c.
Proof.
  intros Hb. unfold reply.
  destruct place_first; cbn [current_operation set_operations]; rewrite Hb; reflexivity.
Qed.

End PumpFacts.

(** ** Inbound dispatch *)

Section DispatchFacts.

Context `{Collaborators}.

Lemma parse_url_result raw_url :
  fst (fst (parse_url raw_url)) = fst (decode (fst (separate_request_parameters raw_url))).
Proof.
  unfold parse_url. destruct (separate_request_parameters raw_url) as [url params].
  cbn [fst]. destruct (decode url). reflexivity.
Qed.

Lemma first_packet_block_result packet c :
  fst (first_packet_block packet c) = fst (fst (parse_url (get_request_url packet))).
Proof.
  unfold first_packet_block.
  destruct (parse_url (get_request_url packet)) as [[res url] params]. reflexivity.
Qed.

Lemma set_keep_alive_queue c :
  operations (set_keep_alive c) = operations c
  /\ current_operation (set_keep_alive c) = current_operation c
  /\ tx_buffer (set_keep_alive c) = tx_buffer c
  /\ closed (set_keep_alive c) = closed c
  /\ handled (set_keep_alive c) = handled c
  /\ received (set_keep_alive c) = received c
  /\ client_context (set_keep_alive c) = client_context c
  /\ mode (set_keep_alive c) = mode c.
Proof.
  unfold set_keep_alive. destruct (request_headers c !! _) as [s|]; [|tauto].
  destruct (icontains s _); cbn; tauto.
Qed.

(** The [if (first_packet)] block changes the request state and the receive
    timeout only. *)
Lemma first_packet_block_queue packet c :
  let c' := snd (first_packet_block packet c) in
  operations c' = operations c
  /\ current_operation c' = current_operation c
  /\ tx_buffer c' = tx_buffer c
  /\ closed c' = closed c
  /\ handled c' = handled c
  /\ received c' = received c
  /\ client_context c' = client_context c
  /\ mode c' = mode c.
Proof.
  unfold first_packet_block.
  destruct (parse_url (get_request_url packet)) as [[res url] params].
  cbn [snd].
  match goal with |- context [set_keep_alive ?x] =>
    pose proof (set_keep_alive_queue x) as Hk end.
  cbn in *. exact Hk.
Qed.

Lemma translate_method_Some packet m :
  translate_method packet = Some m <-> get_request_method packet = method_name m.
Proof.
  unfold translate_method. split.
  - repeat match goal with
      | |- context [String.eqb ?a ?b] =>
          let E := fresh "E" in
          destruct (String.eqb a b) eqn:E;
          [apply String.eqb_eq in E; intros [= <-]; exact E|]
      end.
    discriminate.
  - intros ->. destruct m; reflexivity.
Qed.

Lemma translate_method_None packet :
  translate_method packet = None <-> forall m, get_request_method packet <> method_name m.
Proof.
  split.
  - intros Hn m Hm. apply translate_method_Some in Hm. congruence.
  - intros Hall. destruct (translate_method packet) as [m|] eqn:E; [|reflexivity].
    apply translate_method_Some in E. elim (Hall m E).
Qed.

End DispatchFacts.

(** ** Calls of [get_data] *)

Section DrainFacts.

Context `{Collaborators}.

Lemma get_data_after_calls n op :
  get_data content_chunk_size (after_calls n op)
  = (fst (chunk op n), snd (chunk op n), after_calls (S n) op).
Proof. unfold get_data, chunk. cbn. destruct (source op _ _). reflexivity. Qed.

Lemma get_data_chunk op :
  get_data content_chunk_size op
  = (fst (chunk op 0), snd (chunk op 0), after_calls 1 op).
Proof. unfold get_data, chunk. cbn. destruct (source op _ _). reflexivity. Qed.

Lemma after_calls_0 op : after_calls 0 op = op.
Proof. destruct op. reflexivity. Qed.

Lemma pump_S n c : pump (S n) c = event_TransmitBufferEmpty (pump n c).
Proof. reflexivity. Qed.

End DrainFacts.

(** ** What the pump sends *)

Section TransmissionFacts.

Context `{Collaborators}.

Lemma pump_add n m c : pump (n + m) c = pump n (pump m c).
Proof. unfold pump. apply Nat.iter_add. Qed.

Lemma pump_idle n c :
  current_operation c = None -> operations c = [] -> pump n c = c.
Proof.
  intros Hc Hq. induction n as [|n IH]; [reflexivity|].
  rewrite pump_S, IH. unfold event_TransmitBufferEmpty. rewrite Hc.
  apply send_first_part_nil. exact Hq.
Qed.

Lemma chunk_after_calls n op j : chunk (after_calls n op) j = chunk op (j + n).
Proof. unfold chunk, after_calls. cbn. f_equal. lia. Qed.

Lemma chunk_with_keep_alive c op j : chunk (with_keep_alive c op) j = chunk op j.
Proof.
  unfold with_keep_alive. destruct (mode c); [|reflexivity].
  destruct (0 <? _)%Z; reflexivity.
Qed.

Lemma finishes_after_with_keep_alive c op k :
  finishes_after op k -> finishes_after (with_keep_alive c op) k.
Proof.
  intros [Hdata Hend]. split.
  - intros j Hj. rewrite chunk_with_keep_alive. apply Hdata. exact Hj.
  - rewrite chunk_with_keep_alive. exact Hend.
Qed.

Lemma finishes_after_started op k :
  finishes_after op (S k) -> finishes_after (after_calls 1 op) k.
Proof.
  intros [Hdata Hend]. split.
  - intros j Hj. rewrite chunk_after_calls, Nat.add_1_r. apply Hdata. lia.
  - rewrite chunk_after_calls, Nat.add_1_r. exact Hend.
Qed.

Lemma remaining_started op k :
  remaining (after_calls 1 op) k
  = map (fun j => DataPacket (snd (chunk op j))) (seq 1 k).
Proof.
  unfold remaining. rewrite <- seq_shift, map_map.
  apply map_ext. intros j. rewrite chunk_after_calls, Nat.add_1_r. reflexivity.
Qed.

Lemma remaining_split op n k :
  n <= k ->
  remaining op k
  = remaining op n ++ map (fun j => DataPacket (snd (chunk op j))) (seq n (k - n)).
Proof.
  intros Hle. unfold remaining.
  replace k with (n + (k - n)) at 1 by lia.
  rewrite seq_app, map_app. reflexivity.
Qed.

(** The operation in progress gives one packet for each event as long as it
    reports data. *)
Lemma pump_data c op n :
  current_operation c = Some op ->
  (forall j, j < n -> fst (chunk op j) = HasMoreData \/ fst (chunk op j) = LastData) ->
  tx_buffer (pump n c) = tx_buffer c ++ remaining op n
  /\ current_operation (pump n c) = Some (after_calls n op)
  /\ operations (pump n c) = operations c
  /\ mode (pump n c) = mode c.
Proof.
  intros Hcur Hdata. induction n as [|n IH].
  - cbn. rewrite app_nil_r, after_calls_0. auto.
  - destruct IH as (Htx & Hc & Hq & Hm); [intros j Hj; apply Hdata; lia|].
    rewrite pump_S. unfold event_TransmitBufferEmpty.
    rewrite Hc, get_data_after_calls.
    unfold remaining in *. rewrite seq_S, map_app, app_assoc, <- Htx. cbn [map plus].
    destruct (Hdata n) as [Hs | Hs]; [lia| |]; rewrite Hs; cbn; auto.
Qed.

(** When the operation in progress reports [EndOfData], the event turns to
    the queue. *)
Lemma pump_end c op k :
  current_operation c = Some op ->
  finishes_after op k ->
  pump (S k) c = send_first_part (set_current_operation None (pump k c)).
Proof.
  intros Hcur [Hdata Hend].
  destruct (pump_data c op k Hcur Hdata) as (_ & Hc & _).
  rewrite pump_S. unfold event_TransmitBufferEmpty.
  rewrite Hc, get_data_after_calls, Hend. reflexivity.
Qed.

Lemma transmits_in_progress c op k rest :
  current_operation c = Some op ->
  finishes_after op k ->
  (forall c0 : HTTPServerClient,
     current_operation c0 = None ->
     operations c0 = operations c ->
     mode c0 = mode c ->
     transmits (send_first_part c0) (tx_buffer c0 ++ rest)) ->
  transmits c (tx_buffer c ++ remaining op k ++ rest).
Proof.
  intros Hcur Hfin Hqueue.
  pose proof Hfin as [Hdata _].
  destruct (pump_data c op k Hcur Hdata) as (Htx & _ & Hq & Hm).
  pose proof (pump_end c op k Hcur Hfin) as Hend.
  destruct (Hqueue (set_current_operation None (pump k c)) eq_refl Hq Hm)
    as [Hprefix [N Hfull]].
  rewrite <- Hend in Hprefix, Hfull.
  cbn [tx_buffer set_current_operation] in Hprefix, Hfull.
  rewrite Htx, <- app_assoc in Hprefix, Hfull.
  split.
  - intros n. destruct (Nat.le_gt_cases n k) as [Hle | Hgt].
    + destruct (pump_data c op n Hcur) as (Hn & _); [intros j Hj; apply Hdata; lia|].
      exists (map (fun j => DataPacket (snd (chunk op j))) (seq n (k - n)) ++ rest).
      rewrite Hn, (remaining_split op n k Hle), <- !app_assoc. reflexivity.
    + replace n with ((n - S k) + S k) by lia. rewrite pump_add.
      apply Hprefix.
  - exists (N + S k). intros n Hn.
    replace n with ((n - S k) + S k) by lia. rewrite pump_add.
    apply Hfull. lia.
Qed.

Lemma transmits_queue (jobs : list (IResponseOperation * nat)) :
  Forall (fun job => finishes_after (fst job) (snd job)) jobs ->
  forall c0 : HTTPServerClient,
    current_operation c0 = None ->
    operations c0 = map fst jobs ->
    transmits (send_first_part c0) (tx_buffer c0 ++ plan (mode c0) jobs).
Proof.
  induction 1 as [|[p k] jobs Hp Hjobs IH]; intros c0 Hcur Hq.
  - cbn in Hq. rewrite (send_first_part_nil c0 Hq). unfold plan. cbn. rewrite app_nil_r.
    split.
    + intros n. exists []. rewrite pump_idle, app_nil_r by assumption. reflexivity.
    + exists 0. intros n _. rewrite pump_idle by assumption. auto.
  - cbn [map fst snd] in *.
    rewrite (send_first_part_cons c0 p (map fst jobs) _ _ _ Hq (get_data_chunk p)).
    unfold plan. cbn [flat_map fst snd]. fold (plan (mode c0) jobs).
    destruct k as [|k].
    + destruct Hp as [_ Hend]. rewrite Hend. unfold transmission. cbn [Nat.sub seq map].
      match goal with |- transmits (send_first_part ?c1) _ =>
        specialize (IH c1 eq_refl eq_refl) end.
      cbn [tx_buffer mode set_current_operation tx_put set_operations] in IH.
      rewrite <- app_assoc in IH. exact IH.
    + pose proof (finishes_after_started p k Hp) as Hstarted.
      destruct Hp as [Hdata _].
      set (c1 := tx_put
                   (first_part_packet (mode c0) (after_calls 1 p) (snd (chunk p 0)))
                   (set_current_operation (Some (after_calls 1 p))
                      (set_operations (map fst jobs) c0))).
      assert (Hc1 : transmits c1
                 (tx_buffer c1 ++ remaining (after_calls 1 p) k ++ plan (mode c0) jobs)).
      { apply transmits_in_progress; [reflexivity|exact Hstarted|].
        intros c2 Hcur2 Hq2 Hm2. cbn in Hq2, Hm2. rewrite <- Hm2.
        apply IH; assumption. }
      unfold transmission. rewrite Nat.sub_succ, Nat.sub_0_r.
      rewrite remaining_started in Hc1. subst c1.
      cbn [tx_buffer tx_put set_current_operation set_operations] in Hc1.
      rewrite <- app_assoc in Hc1. cbn [app] in Hc1.
      destruct (Hdata 0) as [Hs | Hs]; [lia| |]; rewrite Hs; exact Hc1.
Qed.

End TransmissionFacts.

(** ** Evaluation on examples *)

Example percent_decode_space :
  percent_decode "?a=1&b=two%20words" = (true, "?a=1&b=two words"%string).
Proof. reflexivity. Qed.

Example percent_decode_malformed : fst (percent_decode "/x%2") = false.
Proof. reflexivity. Qed.

Example separate_request_parameters_example :
  @separate_request_parameters sample "/path?a=1&b=two%20words"
  = ("/path"%string, <["b" := "two words"]> (<["a" := "1"]> ∅)).
Proof. vm_compute. reflexivity. Qed.

Example translate_method_case_sensitive :
  translate_method (request "get" "/") = None
  /\ translate_method (request "PATCH" "/") = None
  /\ translate_method (request "GET" "/") = Some GET.
Proof. repeat split. Qed.

Example to_string_seconds : String.append "timeout=" (to_string 30) = "timeout=30"%string.
Proof. reflexivity. Qed.

(** A request with a query, on a connection with a request context: the
    context is called once with the decoded path and the parameters. *)
Example http_event_get :
  map (fun call => (h_method call, h_url call, h_parameters call))
    (handled
       (@http_event sample (Some (request "GET" "/path?a=1&b=two%20words"))
          (with_context idle_client)))
  = [(GET, "/path"%string,
      <["b"%string := "two words"%string]> (<["a"%string := "1"%string]> ∅))].
Proof. vm_compute. reflexivity. Qed.

(** With no operation in progress [reply] starts the response at once:
    a response that completes on its first [get_data] is sent and dropped
    before [reply] returns. *)
Example reply_when_idle :
  let c := @reply sample R1 false idle_client in
  tx_buffer c
  = [ResponsePacket 200 "1.1"
       [AddHeader "Connection" "keep-alive"; SetHeader "Keep-Alive" "timeout=30"]
       [Byte.x31]]
  /\ operations c = []
  /\ current_operation c = None.
Proof. vm_compute. repeat split. Qed.

(** * The claims *)

(** ** The outbound queue *)

(** C1.  While an operation is in progress, replies stay in the queue:
    after [P1] and [P2] are queued at the back and [P3] is then placed
    first, the queue holds [P3], what was queued before, [P1], [P2], each
    with the keep-alive headers of [reply]; the operation in progress and
    the transmit buffer are as before.  From there, however many
    [TransmitBufferEmptyEvent]s arrive, the operation in progress followed
    by the queue is always what remains of that line, so the operations are
    started in the order [P3], the earlier ones, [P1], [P2].  A reply,
    placed first or not, never replaces an operation in progress and puts
    nothing in the transmit buffer.  On the wire: when every operation
    finishes (reports data for some calls and then [EndOfData]), the
    events put the rest of the operation in progress, then all of [P3],
    then all of each earlier one, then all of [P1], then all of [P2]: after
    any number of events the transmit buffer is a beginning of this, and
    from some number of events on it is all of it, with the queue empty and
    no operation in progress. *)
Theorem queue_ordering `{Collaborators} (c : HTTPServerClient) (busy P1 P2 P3 : IResponseOperation) :
  current_operation c = Some busy ->
  let queued := reply P3 true (reply P2 false (reply P1 false c)) in
  operations queued
  = with_keep_alive c P3 :: operations c ++ [with_keep_alive c P1; with_keep_alive c P2]
  /\ current_operation queued = Some busy
  /\ tx_buffer queued = tx_buffer c
  /\ (forall n,
        served_in_order
          (op_id busy :: op_id P3 :: map op_id (operations c) ++ [op_id P1; op_id P2])
          (pump n queued))
  /\ (forall (started : HTTPServerClient) op response place_first,
        current_operation started = Some op ->
        let later := reply response place_first started in
        current_operation later = Some op
        /\ tx_buffer later = tx_buffer started
        /\ operations later
           = if place_first then with_keep_alive started response :: operations started
             else operations started ++ [with_keep_alive started response])
  /\ (forall (kb k1 k2 k3 : nat) (earlier : list (IResponseOperation * nat)),
        finishes_after busy kb ->
        finishes_after P1 k1 ->
        finishes_after P2 k2 ->
        finishes_after P3 k3 ->
        map fst earlier = operations c ->
        Forall (fun job => finishes_after (fst job) (snd job)) earlier ->
        transmits queued
          (tx_buffer c ++ remaining busy kb
           ++ plan (mode c)
                ((with_keep_alive c P3, k3) :: earlier
                 ++ [(with_keep_alive c P1, k1); (with_keep_alive c P2, k2)]))).
Proof.
  intros Hb queued.
  assert (Hq : queued
    = set_operations
        (with_keep_alive c P3 :: operations c ++ [with_keep_alive c P1; with_keep_alive c P2]) c).
  { subst queued.
    rewrite (reply_busy P1 false c busy Hb).
    rewrite (reply_busy P2 false _ busy) by exact Hb.
    rewrite (reply_busy P3 true _ busy) by exact Hb.
    cbn [operations set_operations]. rewrite <- app_assoc. reflexivity. }
  split; [rewrite Hq; reflexivity|].
  split; [rewrite Hq; exact Hb|].
  split; [rewrite Hq; reflexivity|].
  split; [|split].
  - intros n. apply served_pump. unfold served_in_order.
    rewrite Hq. cbn [current_operation operations set_operations]. rewrite Hb.
    exists 0. cbn [drop map]. rewrite map_app. cbn [map].
    rewrite !with_keep_alive_op_id. reflexivity.
  - intros started op response place_first Hs later. subst later.
    rewrite (reply_busy response place_first started op Hs).
    split; [exact Hs|]. split; [reflexivity|].
    destruct place_first; reflexivity.
  - intros kb k1 k2 k3 earlier Hkb Hk1 Hk2 Hk3 Hearlier Hfinish.
    rewrite Hq.
    apply (transmits_in_progress (set_operations _ c) busy kb); [exact Hb|exact Hkb|].
    intros c0 Hidle Hq0 Hm0. cbn [operations mode set_operations] in Hq0, Hm0.
    rewrite <- Hm0. apply transmits_queue; [|exact Hidle|].
    + constructor; [apply finishes_after_with_keep_alive; exact Hk3|].
      apply Forall_app. split; [exact Hfinish|].
      constructor; [apply finishes_after_with_keep_alive; exact Hk1|].
      constructor; [apply finishes_after_with_keep_alive; exact Hk2|constructor].
    + rewrite Hq0. cbn [map fst]. rewrite map_app, Hearlier. reflexivity.
Qed.

Lemma queue_ordering_witness :
  let queued :=
    @reply sample R3 true
      (@reply sample R2 false (@reply sample R1 false busy_client)) in
  let keep_alive :=
    [AddHeader "Connection" "keep-alive"; SetHeader "Keep-Alive" "timeout=30"] in
  current_operation busy_client <> None
  /\ map op_id (operations queued) = [3; 1; 2]%nat
  /\ exists N, forall n,
       N <= n ->
       tx_buffer (@pump sample n queued)
       = tx_buffer busy_client ++
         [ResponsePacket 200 "1.1" keep_alive [Byte.x33];
          ResponsePacket 200 "1.1" keep_alive [Byte.x31];
          ResponsePacket 200 "1.1" keep_alive [Byte.x32]].
Proof.
  intros queued keep_alive.
  split; [discriminate|].
  destruct (@queue_ordering sample busy_client _ R1 R2 R3 eq_refl)
    as (Hq & _ & _ & _ & _ & Hwire).
  split; [subst queued; rewrite Hq; reflexivity|].
  destruct (Hwire 0 0 0 0 []) as [_ [N HN]];
    try (split; [intros j Hj; lia|reflexivity]);
    try reflexivity; try constructor.
  exists N. intros n Hn. exact (proj1 (HN n Hn)).
Defined.

(** On the wire: once the response in progress reports [EndOfData], one
    event sends [R3], [R1] and [R2], in this order, each with its status
    line and headers. *)
Example queue_ordering_on_the_wire :
  let queued :=
    @reply sample R3 true
      (@reply sample R2 false (@reply sample R1 false busy_client)) in
  let keep_alive :=
    [AddHeader "Connection" "keep-alive"; SetHeader "Keep-Alive" "timeout=30"] in
  tx_buffer (@pump sample 1 queued)
  = tx_buffer busy_client ++
    [ResponsePacket 200 "1.1" keep_alive [Byte.x33];
     ResponsePacket 200 "1.1" keep_alive [Byte.x31];
     ResponsePacket 200 "1.1" keep_alive [Byte.x32]].
Proof. vm_compute. reflexivity. Qed.

(** C2.  When the first [get_data] of the operation [send_first_part] takes
    from the queue reports [EndOfData], the first packet is put in the
    transmit buffer all the same (in HTTP mode with the response code,
    version and headers), the operation is dropped and [send_first_part]
    goes on with the rest of the queue.  So with [A] and [B] queued, both
    complete on their first [get_data], one [TransmitBufferEmptyEvent]
    (with no operation in progress, or with one that reports [EndOfData] on
    this event) puts the packets of [A] and [B] in the transmit buffer and
    leaves the queue empty and no operation in progress. *)
Theorem immediate_completion_chaining `{Collaborators} (c : HTTPServerClient)
  (A B A' B' : IResponseOperation) (dataA dataB : list Byte.byte) :
  get_data content_chunk_size A = (EndOfData, dataA, A') ->
  get_data content_chunk_size B = (EndOfData, dataB, B') ->
  (forall rest,
      operations c = A :: rest ->
      send_first_part c
      = send_first_part
          (set_current_operation None
             (tx_put (first_part_packet (mode c) A' dataA) (set_operations rest c))))
  /\ (mode c = HTTP ->
      first_part_packet (mode c) A' dataA
      = ResponsePacket (response_code A) "1.1" (headers A) dataA)
  /\ (operations c = [A; B] ->
      current_operation c = None
      \/ (exists busy data busy',
            current_operation c = Some busy
            /\ get_data content_chunk_size busy = (EndOfData, data, busy')) ->
      let after := event_TransmitBufferEmpty c in
      tx_buffer after
      = tx_buffer c ++ [first_part_packet (mode c) A' dataA; first_part_packet (mode c) B' dataB]
      /\ operations after = []
      /\ current_operation after = None
      /\ closed after = closed c).
Proof.
  intros HA HB. split; [|split].
  - intros rest Hq. rewrite (send_first_part_cons c A rest _ _ _ Hq HA). reflexivity.
  - intros Hm. rewrite Hm. cbn [first_part_packet].
    apply get_data_op_id in HA as (_ & Hcode & Hhdrs).
    unfold get_response_code, get_headers. rewrite Hcode, Hhdrs. reflexivity.
  - intros Hq Hcur after.
    assert (Hafter : after
      = send_first_part (set_current_operation None c)).
    { subst after. unfold event_TransmitBufferEmpty.
      destruct Hcur as [Hnone | (busy & data & busy' & Hbusy & Hg)].
      - rewrite Hnone. f_equal. destruct c. cbn in Hnone. subst. reflexivity.
      - rewrite Hbusy, Hg. reflexivity. }
    rewrite Hafter.
    rewrite (send_first_part_cons (set_current_operation None c) A [B] _ _ _ Hq HA).
    rewrite (send_first_part_cons _ B [] EndOfData dataB B') by (reflexivity || exact HB).
    rewrite send_first_part_nil by reflexivity.
    cbn. rewrite <- app_assoc. auto.
Qed.

Lemma immediate_completion_chaining_witness :
  tx_buffer
    (@event_TransmitBufferEmpty sample (@set_operations sample [R1; R2] idle_client))
  = [ResponsePacket 200 "1.1" [] [Byte.x31]; ResponsePacket 200 "1.1" [] [Byte.x32]].
Proof.
  destruct (@immediate_completion_chaining sample
              (@set_operations sample [R1; R2] idle_client)
              R1 R2 _ _ _ _ eq_refl eq_refl) as (_ & _ & Hboth).
  destruct (Hboth eq_refl (or_introl eq_refl)) as [Htx _].
  rewrite Htx. reflexivity.
Defined.

(** C6.  When [get_data] reports [Error], on the first chunk in
    [send_first_part] or on a later chunk in the
    [TransmitBufferEmptyEvent] handler, the connection is closed, the
    transmit buffer is as it was, and the queue keeps every operation that
    was waiting: none of them is started. *)
Theorem producer_error_closes `{Collaborators} (c : HTTPServerClient)
  (op op' : IResponseOperation) (data : list Byte.byte) :
  get_data content_chunk_size op = (Error, data, op') ->
  (forall rest,
      operations c = op :: rest ->
      let after := send_first_part c in
      closed after = true
      /\ tx_buffer after = tx_buffer c
      /\ operations after = rest
      /\ current_operation after = Some op')
  /\ (current_operation c = Some op ->
      let after := event_TransmitBufferEmpty c in
      closed after = true
      /\ tx_buffer after = tx_buffer c
      /\ operations after = operations c
      /\ current_operation after = Some op').
Proof.
  intros Hg. split.
  - intros rest Hq after. subst after.
    rewrite (send_first_part_cons c op rest _ _ _ Hq Hg). cbn. auto.
  - intros Hc after. subst after. unfold event_TransmitBufferEmpty.
    rewrite Hc, Hg. cbn. auto.
Qed.

Lemma producer_error_closes_witness :
  closed (@send_first_part sample (@set_operations sample [failing 4; R1] idle_client))
  = true
  /\ operations
       (@send_first_part sample (@set_operations sample [failing 4; R1] idle_client))
     = [R1].
Proof.
  destruct (@producer_error_closes sample
              (@set_operations sample [failing 4; R1] idle_client)
              (failing 4) _ _ eq_refl) as [Hfirst _].
  destruct (Hfirst [R1] eq_refl) as (Hc & _ & Hq & _).
  split; [exact Hc|exact Hq].
Defined.

(** C9.  In the [TransmitBufferEmptyEvent] handler, with an operation in
    progress: on [EndOfData] the connection goes on as if the operation had
    never answered (the bytes of that call are in no packet; with an empty
    queue the transmit buffer is as before); on [HasMoreData] and
    [LastData] the bytes are put in the transmit buffer as a packet of
    their own; on [Error] nothing is put.  [send_first_part], unlike that,
    puts the first packet with the bytes of the call even when the call
    reports [EndOfData]. *)
Theorem end_of_data_chunk_discarded `{Collaborators} (c : HTTPServerClient)
  (op op' : IResponseOperation) (res : ResponseStatus) (data : list Byte.byte) :
  get_data content_chunk_size op = (res, data, op') ->
  (current_operation c = Some op ->
   match res with
   | EndOfData =>
       event_TransmitBufferEmpty c = send_first_part (set_current_operation None c)
       /\ (operations c = [] -> tx_buffer (event_TransmitBufferEmpty c) = tx_buffer c)
   | HasMoreData | LastData =>
       event_TransmitBufferEmpty c
       = tx_put (DataPacket data) (set_current_operation (Some op') c)
   | Error =>
       tx_buffer (event_TransmitBufferEmpty c) = tx_buffer c
   end)
  /\ (forall rest,
      operations c = op :: rest ->
      res = EndOfData ->
      exists more,
        tx_buffer (send_first_part c)
        = tx_buffer c ++ first_part_packet (mode c) op' data :: more).
Proof.
  intros Hg. split.
  - intros Hc. unfold event_TransmitBufferEmpty. rewrite Hc, Hg.
    destruct res; try reflexivity.
    split; [reflexivity|]. intros Hq.
    rewrite send_first_part_nil by exact Hq. reflexivity.
  - intros rest Hq ->.
    rewrite (send_first_part_cons c op rest _ _ _ Hq Hg).
    unfold send_first_part.
    match goal with |- context [send_first_part_of ?q ?c'] =>
      destruct (tx_buffer_send_first_part_of q c') as [more Hm]; rewrite Hm end.
    cbn. rewrite <- app_assoc. eexists. reflexivity.
Qed.

Lemma end_of_data_chunk_discarded_witness :
  tx_buffer
    (@event_TransmitBufferEmpty sample
       (@set_current_operation sample (Some R1) idle_client))
  = []
  /\ exists more,
       tx_buffer (@send_first_part sample (@set_operations sample [R1] idle_client))
       = ResponsePacket 200 "1.1" [] [Byte.x31] :: more.
Proof.
  destruct (@end_of_data_chunk_discarded sample
              (@set_current_operation sample (Some R1) idle_client)
              R1 _ _ _ eq_refl) as [Hpump _].
  destruct (Hpump eq_refl) as [_ Htx].
  split; [exact (Htx eq_refl)|].
  destruct (@end_of_data_chunk_discarded sample
              (@set_operations sample [R1] idle_client)
              R1 _ _ _ eq_refl) as [_ Hfirst].
  destruct (Hfirst [] eq_refl eq_refl) as [more Hmore].
  exists more. exact Hmore.
Defined.

(** C8.  [reply] queues the response it is given after [with_keep_alive]:
    in HTTP mode, when the receive timeout of the socket is [T] whole
    seconds with [T] positive, the response gains [Connection: keep-alive]
    and [Keep-Alive: timeout=T], in this order and nothing else of it
    changes; in WebSocket mode the response is queued as it is, whatever
    the timeout. *)
Theorem keep_alive_propagation `{Collaborators} (c : HTTPServerClient)
  (response : IResponseOperation) (place_first : bool) :
  let queued := with_keep_alive c response in
  reply response place_first c
  = (let c' :=
       set_operations
         (if place_first then queued :: operations c else operations c ++ [queued]) c in
     match current_operation c with
     | None => send_first_part c'
     | Some _ => c'
     end)
  /\ (forall T : Z,
        mode c = HTTP ->
        duration_cast_seconds (receive_timeout c) = T ->
        (0 < T)%Z ->
        queued
        = with_headers
            (headers response ++
             [AddHeader "Connection" "keep-alive";
              SetHeader "Keep-Alive" (String.append "timeout=" (to_string T))])
            response)
  /\ (mode c = Websocket -> queued = response).
Proof.
  intros queued. split; [|split].
  - unfold reply. fold queued. destruct place_first; reflexivity.
  - intros T Hm HT Hpos. subst queued. unfold with_keep_alive.
    rewrite Hm, HT. apply Z.ltb_lt in Hpos. rewrite Hpos.
    unfold set_header, add_header, with_headers. cbn.
    rewrite <- app_assoc. reflexivity.
  - intros Hm. subst queued. unfold with_keep_alive. rewrite Hm. reflexivity.
Qed.

Lemma keep_alive_propagation_witness :
  headers (@with_keep_alive sample idle_client R1)
  = [AddHeader "Connection" "keep-alive"; SetHeader "Keep-Alive" "timeout=30"]
  /\ @with_keep_alive sample websocket_client R1 = R1.
Proof.
  destruct (@keep_alive_propagation sample idle_client R1 false) as (_ & Hhttp & _).
  destruct (@keep_alive_propagation sample websocket_client R1 false) as (_ & _ & Hws).
  split.
  - rewrite (Hhttp 30%Z eq_refl eq_refl eq_refl). reflexivity.
  - exact (Hws eq_refl).
Defined.

(** ** Inbound dispatch *)

(** C7.  In WebSocket mode a frame goes to [websocket_event].  With the
    opcode of Ping above that of Close: a Close frame closes the
    connection; a Ping frame is answered with [reply] of a Pong response
    placed first, which with an operation in progress puts the Pong at the
    front of the queue; any other opcode at or above Close changes nothing; a
    frame with an opcode below Close is handed to the WebSocket server, if
    there is one, with the first and last flags, whether the opcode is
    Text, and the payload, and changes nothing if there is none. *)
Theorem websocket_frame_handling `{Collaborators} (c : HTTPServerClient) (packet : HTTPPacket) :
  (OpCode_Close < OpCode_Ping)%N ->
  let ws_op := ws_control_code packet in
  let call :=
    {| ws_first_part := negb (is_continuation packet);
       ws_last_part := negb (is_continued packet);
       ws_is_text := (ws_op =? OpCode_Text)%N;
       ws_data := packet_data packet |} in
  let after := websocket_event (Some packet) c in
  (mode c = Websocket -> event_DataAvailable (Some packet) c = after)
  /\ (ws_op = OpCode_Close -> after = close c)
  /\ (ws_op = OpCode_Ping ->
      after = reply (WSResponse OpCode_Pong) true c
      /\ (mode c = Websocket ->
          forall op,
            current_operation c = Some op ->
            operations after = WSResponse OpCode_Pong :: operations c))
  /\ ((OpCode_Close <= ws_op)%N -> ws_op <> OpCode_Close -> ws_op <> OpCode_Ping ->
      after = c)
  /\ ((ws_op < OpCode_Close)%N ->
      match ws_server c with
      | Some server =>
          after = run_callbacks (server call) (log_data_received call c)
          /\ received after = received c ++ [call]
      | None => after = c
      end).
Proof.
  intros Hlt ws_op call after. subst after. unfold websocket_event.
  fold ws_op. fold call.
  split; [|split; [|split; [|split]]].
  - intros Hm. unfold event_DataAvailable. rewrite Hm. reflexivity.
  - intros ->. rewrite N.leb_refl, N.eqb_refl. reflexivity.
  - intros ->.
    replace (OpCode_Close <=? OpCode_Ping)%N with true by (symmetry; apply N.leb_le; lia).
    replace (OpCode_Ping =? OpCode_Close)%N with false by (symmetry; apply N.eqb_neq; lia).
    rewrite N.eqb_refl. split; [reflexivity|].
    intros Hm op Hop. rewrite (reply_busy _ true c op Hop).
    cbn [operations set_operations]. unfold with_keep_alive. rewrite Hm. reflexivity.
  - intros Hle Hc Hp.
    apply N.leb_le in Hle. rewrite Hle.
    apply N.eqb_neq in Hc, Hp. rewrite Hc, Hp. reflexivity.
  - intros Hdata. apply N.leb_gt in Hdata. rewrite Hdata.
    destruct (ws_server c) as [server|]; [|reflexivity].
    split; [reflexivity|].
    rewrite (besides_pump_received _ _ (besides_pump_run_callbacks _ _)).
    reflexivity.
Qed.

Lemma websocket_frame_handling_witness :
  (@OpCode_Close sample < @OpCode_Ping sample)%N
  /\ @websocket_event sample (Some (frame 9)) websocket_client
     = @reply sample (@WSResponse sample 10%N) true websocket_client
  /\ received (@websocket_event sample (Some (frame 1)) websocket_client)
     = [{| ws_first_part := true; ws_last_part := true; ws_is_text := true;
           ws_data := [Byte.x68; Byte.x69] |}].
Proof.
  split; [reflexivity|].
  destruct (@websocket_frame_handling sample websocket_client (frame 9) eq_refl)
    as (_ & _ & Hping & _).
  split; [exact (proj1 (Hping eq_refl))|].
  destruct (@websocket_frame_handling sample websocket_client (frame 1) eq_refl)
    as (_ & _ & _ & _ & Hdata).
  destruct (Hdata eq_refl) as [_ Hreceived].
  exact Hreceived.
Defined.

(** C4.  When the packet is the first of a request and decoding the path
    (the request target without its query) fails, [http_event] ends after
    the [if (first_packet)] block: the request context is not called,
    nothing is queued or sent, and the connection is not closed. *)
Theorem malformed_url_dropped `{Collaborators} (c : HTTPServerClient) (packet : HTTPPacket) :
  is_continuation packet = false ->
  fst (decode (fst (separate_request_parameters (get_request_url packet)))) = false ->
  let after := http_event (Some packet) c in
  after = snd (first_packet_block packet c)
  /\ handled after = handled c
  /\ operations after = operations c
  /\ current_operation after = current_operation c
  /\ tx_buffer after = tx_buffer c
  /\ closed after = closed c.
Proof.
  intros Hfirst Hfail after.
  assert (Hafter : after = snd (first_packet_block packet c)).
  { subst after. unfold http_event. rewrite Hfirst. cbn [negb].
    pose proof (first_packet_block_result packet c) as Hres.
    rewrite parse_url_result, Hfail in Hres.
    destruct (first_packet_block packet c) as [res c']. cbn in Hres. subst res.
    reflexivity. }
  split; [exact Hafter|]. rewrite Hafter.
  pose proof (first_packet_block_queue packet c) as Hq. cbn in Hq. tauto.
Qed.

Lemma malformed_url_dropped_witness :
  fst (percent_decode "/x%2") = false
  /\ handled (@http_event sample (Some (request "GET" "/x%2")) (with_context idle_client))
     = []
  /\ tx_buffer (@http_event sample (Some (request "GET" "/x%2")) (with_context idle_client))
     = []
  /\ closed (@http_event sample (Some (request "GET" "/x%2")) (with_context idle_client))
     = false.
Proof.
  split; [reflexivity|].
  destruct (@malformed_url_dropped sample (with_context idle_client)
              (request "GET" "/x%2") eq_refl eq_refl)
    as (_ & Hh & _ & _ & Ht & Hc).
  split; [exact Hh|]. split; [exact Ht|exact Hc].
Defined.



(** C5, as the code has it.  [translate_method] answers a method exactly
    when the method string of the packet is, character for character, one
    of [GET], [POST], [PUT], [DELETE], [HEAD].  On a connection with a
    request context attached, for a packet that is a continuation or whose
    path decodes: when the method string is none of the five,
    [http_event] is [reply] of a [Method_Not_Allowed] response, not placed
    first, and the request context is not called; when it is one of them,
    the request context is called once, with the method, the requested
    URL, the request headers, the request parameters, the body of the
    packet, the MIME parser and the first and last flags, and what it
    calls on the connection is run. *)
Theorem method_dispatch `{Collaborators} (c : HTTPServerClient) (packet : HTTPPacket)
  (context : RequestHandler) :
  client_context c = Some context ->
  (is_continuation packet = false ->
   fst (decode (fst (separate_request_parameters (get_request_url packet)))) = true) ->
  let first_part := negb (is_continuation packet) in
  let last_part := negb (is_continued packet) in
  let parsed := if first_part then snd (first_packet_block packet c) else c in
  let after := http_event (Some packet) c in
  (forall m, translate_method packet = Some m <-> get_request_method packet = method_name m)
  /\ ((forall m, get_request_method packet <> method_name m) ->
      after = reply (StringResponse Method_Not_Allowed) false parsed
      /\ handled after = handled c)
  /\ (forall m,
        get_request_method packet = method_name m ->
        let call :=
          {| h_method := m; h_url := requested_url parsed;
             h_headers := request_headers parsed;
             h_parameters := request_parameters parsed;
             h_body := get_buffer packet; h_mime := mime parsed;
             h_first_part := first_part; h_last_part := last_part |} in
        after
        = run_callbacks (snd (context call))
            (set_mime (fst (context call)) (log_handle call parsed))
        /\ handled after = handled c ++ [call]).
Proof.
  intros Hctx Hgate first_part last_part parsed after.
  assert (Hafter : after = dispatch packet first_part last_part parsed).
  { subst after parsed first_part last_part. unfold http_event.
    destruct (is_continuation packet); cbn [negb]; [reflexivity|].
    pose proof (first_packet_block_result packet c) as Hres.
    rewrite parse_url_result, Hgate in Hres by reflexivity.
    destruct (first_packet_block packet c) as [res c']. cbn in Hres. subst res.
    reflexivity. }
  assert (Hparsed : client_context parsed = Some context /\ handled parsed = handled c).
  { subst parsed. destruct first_part; [|auto].
    pose proof (first_packet_block_queue packet c) as Hq. cbn in Hq.
    rewrite <- Hctx. tauto. }
  destruct Hparsed as [Hpc Hph].
  split; [apply translate_method_Some|]. split.
  - intros Hnone. apply translate_method_None in Hnone.
    assert (Hr : after = reply (StringResponse Method_Not_Allowed) false parsed).
    { rewrite Hafter. unfold dispatch. rewrite Hpc, Hnone. reflexivity. }
    split; [exact Hr|]. rewrite Hr, <- Hph.
    apply besides_pump_handled, besides_pump_reply.
  - intros m Hm call. apply translate_method_Some in Hm.
    assert (Hr : after
      = run_callbacks (snd (context call))
          (set_mime (fst (context call)) (log_handle call parsed))).
    { rewrite Hafter. unfold dispatch. rewrite Hpc, Hm. fold call.
      destruct (context call). reflexivity. }
    split; [exact Hr|]. rewrite Hr.
    rewrite (besides_pump_handled _ _ (besides_pump_run_callbacks _ _)).
    cbn. rewrite Hph. reflexivity.
Qed.

Lemma method_dispatch_witness :
  handled (@http_event sample (Some (request "PATCH" "/a")) (with_context idle_client))
  = []
  /\ tx_buffer (@http_event sample (Some (request "PATCH" "/a")) (with_context idle_client))
     = [ResponsePacket 405 "1.1"
          [AddHeader "Connection" "keep-alive"; SetHeader "Keep-Alive" "timeout=30"] []]
  /\ map h_method
       (handled (@http_event sample (Some (request "GET" "/a")) (with_context idle_client)))
     = [GET].
Proof.
  destruct (@method_dispatch sample (with_context idle_client) (request "PATCH" "/a")
              echo_context eq_refl (fun _ => eq_refl)) as (_ & Hunsupported & _).
  destruct Hunsupported as [Hreply Hhandled];
    [intros m; destruct m; discriminate|].
  split; [exact Hhandled|].
  split; [rewrite Hreply; reflexivity|].
  destruct (@method_dispatch sample (with_context idle_client) (request "GET" "/a")
              echo_context eq_refl (fun _ => eq_refl)) as (_ & _ & Hsupported).
  destruct (Hsupported GET eq_refl) as [_ Hcalled].
  rewrite Hcalled. reflexivity.
Defined.

(** C5, as it is written, fails on a connection with no request context:
    a [PATCH] request whose URL decodes is not answered, while [reply]
    would have put the 405 response in the transmit buffer. *)
Lemma unsupported_method_without_context :
  let after := @http_event sample (Some (request "PATCH" "/a")) idle_client in
  fst (fst (@parse_url sample "/a")) = true
  /\ @translate_method (request "PATCH" "/a") = None
  /\ operations after = []
  /\ current_operation after = None
  /\ tx_buffer after = []
  /\ after <> @reply sample (@StringResponse sample Method_Not_Allowed) false after.
Proof.
  vm_compute. repeat (split; [reflexivity|]).
  intros Heq. apply (f_equal tx_buffer) in Heq. vm_compute in Heq. discriminate.
Qed.

(** ** The query decoder *)

(** C3, as the code has it.  For a request target with a ['?'], where
    [path] is what comes before the first ['?'] and decoding the range from
    that ['?'] leaves the ['?'] followed by [decoded]: the string left is
    [path]; the parameters are made from [decoded], the text after
    decoding, by going through its pieces between ['&'] so that a piece
    with ['='] is split at its first ['='] and assigned, and a piece
    without ['='] is kept, with its ['&'], in front of the key of the next
    piece that has one (and is discarded when there is none).  When no
    piece without ['='] comes before a piece with one, these are the
    parameters of the specification: split on ['&'], each pair split on its
    first ['='], pairs without ['='] discarded, and the last pair with a
    key gives its value. *)
Theorem query_decoding `{Collaborators} (path query decoded : string) :
  absent "?" path ->
  snd (decode (String "?" query)) = String "?" decoded ->
  let result := separate_request_parameters (String.append path (String "?" query)) in
  fst result = path
  /\ snd result = assign_carrying EmptyString (split_on "&" decoded) ∅
  /\ (keyed_then_bare (split_on "&" decoded) = true ->
      snd result = spec_parameters decoded
      /\ forall front item back,
           split_on "&" decoded = front ++ item :: back ->
           has_equal_sign item = true ->
           Forall (fun q => has_equal_sign q = true -> key_of q <> key_of item) back ->
           snd result !! key_of item = Some (value_of item)).
Proof.
  intros Hp Hd result. subst result.
  rewrite (separate_request_parameters_query path query decoded Hp Hd).
  cbn [fst snd]. split; [reflexivity|].
  split; [apply parameters_pairs|].
  intros Hk.
  assert (Hs : parameters decoded = spec_parameters decoded).
  { rewrite parameters_pairs. apply assign_carrying_keyed. exact Hk. }
  split; [exact Hs|].
  intros front item back Hsplit Hitem Hback. rewrite Hs.
  eapply spec_parameters_last; eassumption.
Qed.

Lemma query_decoding_witness :
  absent "?" "/path"
  /\ snd (percent_decode "?a=1&b=two%20words") = "?a=1&b=two words"%string
  /\ keyed_then_bare (split_on "&" "a=1&b=two words") = true
  /\ @separate_request_parameters sample "/path?a=1&b=two%20words"
     = ("/path"%string, spec_parameters "a=1&b=two words").
Proof.
  split; [reflexivity|]. split; [reflexivity|]. split; [reflexivity|].
  destruct (@query_decoding sample "/path" "a=1&b=two%20words" "a=1&b=two words"
              eq_refl eq_refl) as (Hpath & _ & Hspec).
  destruct (Hspec eq_refl) as [Hparams _].
  apply injective_projections; [exact Hpath|exact Hparams].
Defined.

(** C3, as it is written, fails on [/p?a&b=1]: the pair [a] has no ['=']
    and is not discarded; the parameters are [a&b] with value [1], where
    splitting on ['&'] first gives [b] with value [1]. *)
Lemma query_pair_without_equal_sign :
  snd (percent_decode "?a&b=1") = "?a&b=1"%string
  /\ snd (@separate_request_parameters sample "/p?a&b=1") = {["a&b"%string := "1"%string]}
  /\ spec_parameters "a&b=1" = {["b"%string := "1"%string]}
  /\ snd (@separate_request_parameters sample "/p?a&b=1") <> spec_parameters "a&b=1".
Proof.
  split; [reflexivity|].
  split; [vm_compute; reflexivity|].
  split; [vm_compute; reflexivity|].
  intros Heq. apply (f_equal (fun m : gmap string string => m !! "b"%string)) in Heq.
  vm_compute in Heq. discriminate.
Qed.

(** * Further properties *)

(** ** The queue is never left waiting *)

Section SettledFacts.

Context `{Collaborators}.

Lemma settled_busy c op : current_operation c = Some op -> settled c.
Proof. unfold settled. intros Hc Hn. congruence. Qed.

Lemma settled_send_first_part c :
  current_operation c = None -> settled (send_first_part c).
Proof.
  intros Hc. unfold settled, send_first_part.
  apply send_first_part_of_settled; [reflexivity|exact Hc].
Qed.

Lemma settled_reply response place_first c : settled (reply response place_first c).
Proof.
  unfold reply.
  destruct place_first; cbn [current_operation set_operations];
    destruct (current_operation c) as [op|] eqn:Hc;
    solve [ apply (settled_busy _ op); exact Hc
          | apply settled_send_first_part; exact Hc ].
Qed.

Lemma settled_reply_error response c : settled (reply_error response c).
Proof.
  unfold reply_error. cbn [current_operation set_operations].
  destruct (current_operation c) as [op|] eqn:Hc.
  - apply (settled_busy _ op). exact Hc.
  - apply settled_send_first_part. exact Hc.
Qed.

Lemma settled_event_TransmitBufferEmpty c : settled (event_TransmitBufferEmpty c).
Proof.
  unfold event_TransmitBufferEmpty.
  destruct (current_operation c) as [op|] eqn:Hc.
  - destruct (get_data content_chunk_size op) as [[res data] op'].
    destruct res;
      solve [ eapply settled_busy; reflexivity
            | apply settled_send_first_part; reflexivity ].
  - apply settled_send_first_part. exact Hc.
Qed.

Lemma settled_run_callback c cb : settled (run_callback c cb).
Proof. destruct cb; [apply settled_reply|apply settled_reply_error]. Qed.

Lemma settled_run_callbacks cbs : forall c,
  settled c -> settled (run_callbacks cbs c).
Proof.
  unfold run_callbacks.
  induction cbs as [|cb cbs IH]; intros c Hs; [exact Hs|].
  cbn [fold_left]. apply IH. apply settled_run_callback.
Qed.

Lemma settled_same_queue c c' :
  operations c' = operations c ->
  current_operation c' = current_operation c ->
  settled c -> settled c'.
Proof. unfold settled. intros -> ->. auto. Qed.

Lemma settled_http_event event c : settled c -> settled (http_event event c).
Proof.
  intros Hs. destruct event as [packet|]; [|exact Hs]. unfold http_event.
  assert (Hd : forall first last c', settled c' -> settled (dispatch packet first last c')).
  { intros first last c' Hs'. unfold dispatch.
    destruct (client_context c') as [context|]; [|exact Hs'].
    destruct (translate_method packet) as [m|]; [|apply settled_reply].
    match goal with |- context [context ?call] => destruct (context call) as [m' cbs] end.
    apply settled_run_callbacks.
    eapply settled_same_queue; [| |exact Hs']; reflexivity. }
  destruct (is_continuation packet); cbn [negb].
  - apply Hd. exact Hs.
  - pose proof (first_packet_block_queue packet c) as Hq. cbn in Hq.
    destruct (first_packet_block packet c) as [res c']. cbn [snd] in Hq.
    assert (Hs' : settled c')
      by (eapply settled_same_queue; [| |exact Hs]; tauto).
    destruct res; [apply Hd|]; exact Hs'.
Qed.

Lemma settled_websocket_event event c : settled c -> settled (websocket_event event c).
Proof.
  intros Hs. destruct event as [packet|]; [|exact Hs]. unfold websocket_event.
  destruct (OpCode_Close <=? ws_control_code packet)%N.
  - destruct (ws_control_code packet =? OpCode_Close)%N.
    + eapply settled_same_queue; [| |exact Hs]; reflexivity.
    + destruct (ws_control_code packet =? OpCode_Ping)%N; [apply settled_reply|exact Hs].
  - destruct (ws_server c) as [server|]; [|exact Hs].
    apply settled_run_callbacks.
    eapply settled_same_queue; [| |exact Hs]; reflexivity.
Qed.

Lemma settled_handle_event c e : settled c -> settled (handle_event c e).
Proof.
  intros Hs. destruct e as [event| | | |cb]; cbn [handle_event].
  - unfold event_DataAvailable. destruct (mode c).
    + apply settled_http_event. exact Hs.
    + apply settled_websocket_event. exact Hs.
  - apply settled_event_TransmitBufferEmpty.
  - eapply settled_same_queue; [| |exact Hs]; reflexivity.
  - exact Hs.
  - apply settled_run_callback.
Qed.

End SettledFacts.

(** X1.  When [reply], [reply_error], the [TransmitBufferEmptyEvent]
    handler or [reset_client] return, an operation is in progress or the
    queue is empty, whatever the connection was like before. *)
Theorem pump_entry_points_settle `{Collaborators} (c : HTTPServerClient)
  (response : IResponseOperation) (place_first : bool) :
  settled (reply response place_first c)
  /\ settled (reply_error response c)
  /\ settled (event_TransmitBufferEmpty c)
  /\ settled (reset_client c).
Proof.
  split; [apply settled_reply|].
  split; [apply settled_reply_error|].
  split; [apply settled_event_TransmitBufferEmpty|].
  unfold settled, reset_client. reflexivity.
Qed.

(** X2.  A connection in which an operation is in progress or the queue is
    empty stays so under every sequence of events and calls: nothing is
    ever left waiting in the queue with no operation in progress. *)
Theorem run_keeps_settled `{Collaborators} (events : list Event) (c : HTTPServerClient) :
  settled c -> settled (run events c).
Proof.
  unfold run. revert c.
  induction events as [|e events IH]; intros c Hs; [exact Hs|].
  cbn [fold_left]. apply IH. apply settled_handle_event. exact Hs.
Qed.

Lemma run_keeps_settled_witness :
  settled idle_client
  /\ settled
       (@run sample
          [DataAvailable (Some (request "GET" "/a")); Call (Reply R1 false);
           TransmitBufferEmpty; Call (ReplyError R2)]
          (with_context idle_client)).
Proof.
  split; [intros _; reflexivity|].
  apply (@run_keeps_settled sample). intros _. reflexivity.
Defined.

(** ** What no event undoes *)

Section CarriesOnFacts.

Context `{Collaborators}.

Lemma carries_on_same c c' :
  mode c' = mode c ->
  client_context c' = client_context c ->
  ws_server c' = ws_server c ->
  (closed c = true -> closed c' = true) ->
  tx_buffer c' = tx_buffer c ->
  carries_on c c'.
Proof.
  intros Hm Hx Hw Hc Ht. unfold carries_on.
  repeat (split; [assumption|]).
  exists []. rewrite app_nil_r. split; [exact Ht|reflexivity].
Qed.

Lemma carries_on_refl c : carries_on c c.
Proof. apply carries_on_same; auto. Qed.

Lemma carries_on_trans c1 c2 c3 :
  carries_on c1 c2 -> carries_on c2 c3 -> carries_on c1 c3.
Proof.
  intros (Hm1 & Hx1 & Hw1 & Hc1 & more1 & Ht1 & Hd1)
         (Hm2 & Hx2 & Hw2 & Hc2 & more2 & Ht2 & Hd2).
  unfold carries_on.
  split; [congruence|]. split; [congruence|]. split; [congruence|].
  split; [auto|].
  exists (more1 ++ more2). split.
  - rewrite Ht2, Ht1, app_assoc. reflexivity.
  - intros Hws. rewrite forallb_app, Hd1 by exact Hws.
    rewrite Hd2 by congruence. reflexivity.
Qed.

Lemma carries_on_tx_put p c :
  (mode c = Websocket -> is_data_packet p = true) -> carries_on c (tx_put p c).
Proof.
  intros Hp. unfold carries_on. cbn.
  repeat (split; [auto|]).
  exists [p]. split; [reflexivity|].
  intros Hws. cbn. rewrite Hp by exact Hws. reflexivity.
Qed.

Lemma first_part_packet_data c op data :
  mode c = Websocket -> is_data_packet (first_part_packet (mode c) op data) = true.
Proof. intros ->. reflexivity. Qed.

Lemma carries_on_send_first_part_of queue : forall c,
  carries_on c (send_first_part_of queue c).
Proof.
  induction queue as [|front rest IH]; intros c; [apply carries_on_refl|].
  cbn [send_first_part_of].
  destruct (get_data content_chunk_size front) as [[res data] op].
  set (c1 := set_current_operation (Some op)
               (set_operations rest (set_current_operation (Some front) c))).
  assert (H1 : carries_on c c1) by (apply carries_on_same; auto).
  assert (H2 : carries_on c (tx_put (first_part_packet (mode c1) op data) c1)).
  { eapply carries_on_trans; [exact H1|].
    apply carries_on_tx_put. apply first_part_packet_data. }
  destruct res; try exact H2.
  - eapply carries_on_trans; [exact H2|].
    eapply carries_on_trans; [|apply IH].
    apply carries_on_same; auto.
  - eapply carries_on_trans; [exact H1|]. apply carries_on_same; auto.
Qed.

Lemma carries_on_send_first_part c : carries_on c (send_first_part c).
Proof. apply carries_on_send_first_part_of. Qed.

Lemma carries_on_event_TransmitBufferEmpty c :
  carries_on c (event_TransmitBufferEmpty c).
Proof.
  unfold event_TransmitBufferEmpty.
  destruct (current_operation c) as [op|]; [|apply carries_on_send_first_part].
  destruct (get_data content_chunk_size op) as [[res data] op'].
  destruct res.
  - eapply carries_on_trans; [|apply carries_on_tx_put; reflexivity].
    apply carries_on_same; auto.
  - eapply carries_on_trans; [|apply carries_on_tx_put; reflexivity].
    apply carries_on_same; auto.
  - eapply carries_on_trans; [|apply carries_on_send_first_part].
    apply carries_on_same; auto.
  - apply carries_on_same; auto.
Qed.

Lemma carries_on_reply response place_first c :
  carries_on c (reply response place_first c).
Proof.
  unfold reply.
  destruct place_first; cbn [current_operation set_operations];
    destruct (current_operation c);
    solve [ apply carries_on_same; auto
          | eapply carries_on_trans; [|apply carries_on_send_first_part];
            apply carries_on_same; auto ].
Qed.

Lemma carries_on_reply_error response c : carries_on c (reply_error response c).
Proof.
  unfold reply_error. cbn [current_operation set_operations].
  destruct (current_operation c).
  - apply carries_on_same; auto.
  - eapply carries_on_trans; [|apply carries_on_send_first_part].
    apply carries_on_same; auto.
Qed.

Lemma carries_on_run_callback c cb : carries_on c (run_callback c cb).
Proof. destruct cb; [apply carries_on_reply|apply carries_on_reply_error]. Qed.

Lemma carries_on_run_callbacks cbs : forall c, carries_on c (run_callbacks cbs c).
Proof.
  unfold run_callbacks.
  induction cbs as [|cb cbs IH]; intros c; [apply carries_on_refl|].
  cbn [fold_left]. eapply carries_on_trans; [apply carries_on_run_callback|apply IH].
Qed.

Lemma carries_on_dispatch packet first last c :
  carries_on c (dispatch packet first last c).
Proof.
  unfold dispatch.
  destruct (client_context c) as [context|]; [|apply carries_on_refl].
  destruct (translate_method packet) as [m|]; [|apply carries_on_reply].
  match goal with |- context [context ?call] => destruct (context call) as [m' cbs] end.
  eapply carries_on_trans; [|apply carries_on_run_callbacks].
  apply carries_on_same; auto.
Qed.

Lemma carries_on_http_event event c : carries_on c (http_event event c).
Proof.
  destruct event as [packet|]; [|apply carries_on_refl]. unfold http_event.
  destruct (is_continuation packet); cbn [negb]; [apply carries_on_dispatch|].
  pose proof (first_packet_block_queue packet c) as Hq. cbn in Hq.
  assert (Hw : ws_server (snd (first_packet_block packet c)) = ws_server c).
  { unfold first_packet_block.
    destruct (parse_url (get_request_url packet)) as [[res url] params]. cbn [snd].
    unfold set_keep_alive. cbn.
    destruct (packet_headers packet !! _) as [s|]; [|reflexivity].
    destruct (icontains s _); reflexivity. }
  destruct (first_packet_block packet c) as [res c']. cbn [snd] in *.
  assert (H1 : carries_on c c').
  { apply carries_on_same; try tauto.
    intros Hc. destruct Hq as (_ & _ & _ & Hcl & _). congruence. }
  destruct res; [|exact H1].
  eapply carries_on_trans; [exact H1|apply carries_on_dispatch].
Qed.

Lemma carries_on_websocket_event event c : carries_on c (websocket_event event c).
Proof.
  destruct event as [packet|]; [|apply carries_on_refl]. unfold websocket_event.
  destruct (OpCode_Close <=? ws_control_code packet)%N.
  - destruct (ws_control_code packet =? OpCode_Close)%N;
      [apply carries_on_same; auto|].
    destruct (ws_control_code packet =? OpCode_Ping)%N;
      [apply carries_on_reply|apply carries_on_refl].
  - destruct (ws_server c) as [server|]; [|apply carries_on_refl].
    eapply carries_on_trans; [|apply carries_on_run_callbacks].
    apply carries_on_same; auto.
Qed.

Lemma carries_on_handle_event c e : carries_on c (handle_event c e).
Proof.
  destruct e as [event| | | |cb]; cbn [handle_event].
  - unfold event_DataAvailable. destruct (mode c).
    + apply carries_on_http_event.
    + apply carries_on_websocket_event.
  - apply carries_on_event_TransmitBufferEmpty.
  - apply carries_on_same; auto.
  - apply carries_on_refl.
  - apply carries_on_run_callback.
Qed.

End CarriesOnFacts.

(** X3.  Under every sequence of events and calls the mode, the request
    context and the WebSocket server stay what they were, a closed
    connection stays closed, and the transmit buffer keeps every packet it
    held, in place, and only gains packets at its end; in WebSocket mode
    every packet gained is one without status line and headers. *)
Theorem run_carries_on `{Collaborators} (events : list Event) (c : HTTPServerClient) :
  carries_on c (run events c).
Proof.
  unfold run. revert c.
  induction events as [|e events IH]; intros c; [apply carries_on_refl|].
  cbn [fold_left].
  eapply carries_on_trans; [apply carries_on_handle_event|apply IH].
Qed.

(** ** Draining operations *)

(** X4.  An operation in progress whose next [n] calls of [get_data]
    report [HasMoreData] or [LastData] is pumped by [n]
    [TransmitBufferEmptyEvent]s into [n] packets without status line and
    headers, one for each call and in the order of the calls, while the
    queue waits untouched; when the call after them reports [EndOfData],
    the next event drops the operation and turns to the queue, and with an
    empty queue it puts nothing more. *)
Theorem streaming_drain `{Collaborators} (c : HTTPServerClient)
  (op : IResponseOperation) (n : nat) :
  current_operation c = Some op ->
  (forall k, k < n -> fst (chunk op k) = HasMoreData \/ fst (chunk op k) = LastData) ->
  let pumped := pump n c in
  tx_buffer pumped
  = tx_buffer c ++ map (fun k => DataPacket (snd (chunk op k))) (seq 0 n)
  /\ current_operation pumped = Some (after_calls n op)
  /\ operations pumped = operations c
  /\ closed pumped = closed c
  /\ (fst (chunk op n) = EndOfData ->
      pump (S n) c = send_first_part (set_current_operation None pumped)
      /\ (operations c = [] ->
          tx_buffer (pump (S n) c) = tx_buffer pumped
          /\ current_operation (pump (S n) c) = None)).
Proof.
  intros Hcur Hdata pumped.
  assert (Hn : tx_buffer pumped
               = tx_buffer c ++ map (fun k => DataPacket (snd (chunk op k))) (seq 0 n)
               /\ current_operation pumped = Some (after_calls n op)
               /\ operations pumped = operations c
               /\ closed pumped = closed c).
  { subst pumped. induction n as [|n IH].
    - cbn. rewrite app_nil_r, after_calls_0. auto.
    - destruct IH as (Htx & Hc & Hq & Hcl); [intros k Hk; apply Hdata; lia|].
      rewrite pump_S. unfold event_TransmitBufferEmpty.
      rewrite Hc, get_data_after_calls.
      rewrite seq_S, map_app, app_assoc, <- Htx. cbn [map plus].
      destruct (Hdata n) as [Hs | Hs]; [lia| |]; rewrite Hs; cbn; auto. }
  destruct Hn as (Htx & Hc & Hq & Hcl).
  repeat (split; [assumption|]).
  intros Hend.
  assert (Hnext : pump (S n) c = send_first_part (set_current_operation None pumped)).
  { rewrite pump_S. fold pumped. unfold event_TransmitBufferEmpty.
    rewrite Hc, get_data_after_calls, Hend. reflexivity. }
  split; [exact Hnext|].
  intros Hempty. rewrite Hnext.
  rewrite send_first_part_nil by (cbn; congruence). auto.
Qed.

Lemma streaming_drain_witness :
  let c := @reply sample (streaming 9 200 3 [Byte.x2a]) false idle_client in
  tx_buffer (@pump sample 2 c)
  = tx_buffer c ++ [DataPacket [Byte.x2a]; DataPacket [Byte.x2a]]
  /\ current_operation (@pump sample 3 c) = None.
Proof.
  intros c.
  destruct (@streaming_drain sample c _ 2 eq_refl) as (Htx & _ & _ & _ & Hend).
  { intros k Hk. destruct k as [|[|k]]; [left; reflexivity|left; reflexivity|lia]. }
  split; [exact Htx|].
  destruct (Hend eq_refl) as [_ Hlast].
  exact (proj2 (Hlast eq_refl)).
Defined.

(** X5.  [send_first_part] goes through the queue as long as the
    operations complete on their first [get_data], putting the first packet
    of each, in the order of the queue, and stops at the first operation
    that does not.  If that operation reports an error the connection is
    closed, nothing is put for it, and what is behind it stays queued; if
    it reports [HasMoreData] or [LastData] its first packet follows those
    of the operations before it and it is the operation in progress. *)
Theorem send_first_part_chain `{Collaborators} (done rest : list IResponseOperation)
  (p : IResponseOperation) :
  Forall completes_at_once done ->
  fst (chunk p 0) <> EndOfData ->
  forall c : HTTPServerClient,
  operations c = done ++ p :: rest ->
  let after := send_first_part c in
  operations after = rest
  /\ current_operation after = Some (after_calls 1 p)
  /\ (fst (chunk p 0) = Error ->
      closed after = true
      /\ tx_buffer after = tx_buffer c ++ first_packets (mode c) done)
  /\ (fst (chunk p 0) <> Error ->
      closed after = closed c
      /\ tx_buffer after
         = tx_buffer c ++ first_packets (mode c) done
           ++ [first_part_packet (mode c) (after_calls 1 p) (snd (chunk p 0))]).
Proof.
  intros Hdone Hp.
  induction Hdone as [|d done Hd Hdone IH]; intros c Hq after; subst after.
  - cbn [app] in Hq.
    rewrite (send_first_part_cons c p rest _ _ _ Hq (get_data_chunk p)).
    unfold first_packets. cbn [map]. rewrite app_nil_r.
    destruct (fst (chunk p 0)); cbn; try congruence;
      (split; [reflexivity|]); (split; [reflexivity|]);
      split; intros; try congruence; auto.
  - cbn [app] in Hq.
    rewrite (send_first_part_cons c d (done ++ p :: rest) _ _ _ Hq (get_data_chunk d)).
    unfold completes_at_once in Hd. rewrite Hd.
    match goal with |- context [send_first_part ?c1] =>
      specialize (IH c1 eq_refl); cbn zeta in IH;
      destruct IH as (Hr & Hc & Herr & Hok) end.
    cbn [mode tx_buffer closed set_current_operation tx_put set_operations] in Herr, Hok.
    split; [exact Hr|]. split; [exact Hc|].
    unfold first_packets in *. cbn [map].
    split.
    + intros He. destruct (Herr He) as [Hcl Htx]. split; [exact Hcl|].
      rewrite Htx, <- app_assoc. reflexivity.
    + intros He. destruct (Hok He) as [Hcl Htx]. split; [exact Hcl|].
      rewrite Htx, <- !app_assoc. reflexivity.
Qed.

Lemma send_first_part_chain_witness :
  let after :=
    @send_first_part sample
      (@set_operations sample [R1; R2; failing 4; R3] idle_client) in
  operations after = [R3]
  /\ closed after = true
  /\ tx_buffer after
     = [ResponsePacket 200 "1.1" [] [Byte.x31]; ResponsePacket 200 "1.1" [] [Byte.x32]].
Proof.
  destruct (@send_first_part_chain sample [R1; R2] [R3] (failing 4))
    with (c := @set_operations sample [R1; R2; failing 4; R3] idle_client)
    as (Hq & _ & Herr & _).
  - repeat constructor.
  - discriminate.
  - reflexivity.
  - destruct (Herr eq_refl) as [Hcl Htx].
    split; [exact Hq|]. split; [exact Hcl|exact Htx].
Defined.

(** X6.  A queue in which every operation completes on its first
    [get_data] is emptied by one [send_first_part]: the first packet of
    every operation is put, in the order of the queue, no operation is left
    in progress, and the connection is not closed. *)
Theorem send_first_part_drains `{Collaborators} (c : HTTPServerClient) :
  Forall completes_at_once (operations c) ->
  operations c <> [] ->
  let after := send_first_part c in
  tx_buffer after = tx_buffer c ++ first_packets (mode c) (operations c)
  /\ operations after = []
  /\ current_operation after = None
  /\ closed after = closed c.
Proof.
  remember (operations c) as queue eqn:Hq. symmetry in Hq.
  intros Hall. revert c Hq.
  induction Hall as [|d queue Hd Hall IH]; intros c Hq Hne after; [congruence|].
  subst after.
  rewrite (send_first_part_cons c d queue _ _ _ Hq (get_data_chunk d)).
  unfold completes_at_once in Hd. rewrite Hd.
  unfold first_packets. cbn [map].
  destruct queue as [|d' queue].
  - rewrite send_first_part_nil by reflexivity. cbn. auto.
  - match goal with |- context [send_first_part ?c1] =>
      specialize (IH c1 eq_refl); cbn zeta in IH;
      destruct IH as (Htx & Hr & Hc & Hcl); [discriminate|] end.
    cbn [mode tx_buffer closed operations set_current_operation tx_put set_operations] in Htx, Hcl.
    unfold first_packets in Htx.
    rewrite Htx, <- app_assoc. auto.
Qed.

Lemma send_first_part_drains_witness :
  tx_buffer (@send_first_part sample (@set_operations sample [R3; R1; R2] idle_client))
  = [ResponsePacket 200 "1.1" [] [Byte.x33]; ResponsePacket 200 "1.1" [] [Byte.x31];
     ResponsePacket 200 "1.1" [] [Byte.x32]].
Proof.
  destruct (@send_first_part_drains sample
              (@set_operations sample [R3; R1; R2] idle_client)) as [Htx _].
  - repeat constructor.
  - discriminate.
  - exact Htx.
Defined.

(** ** Replies *)

(** X7.  [reply_error] gives the response the header call
    [Connection: close] and no keep-alive header, and drops everything
    that was queued.  With an operation in progress the response is alone
    in the queue, and under any number of [TransmitBufferEmptyEvent]s
    nothing but the operation in progress and then the response is ever
    started.  With no operation in progress the response is started at
    once: unless its first [get_data] reports an error, its first packet is
    the one packet put and the queue is empty. *)
Theorem reply_error_discards_queue `{Collaborators} (c : HTTPServerClient)
  (response : IResponseOperation) :
  let last := add_header CONNECTION "close" response in
  let after := reply_error response c in
  headers last = headers response ++ [AddHeader "Connection" "close"]
  /\ (forall busy,
        current_operation c = Some busy ->
        operations after = [last]
        /\ current_operation after = Some busy
        /\ tx_buffer after = tx_buffer c
        /\ forall n, served_in_order [op_id busy; op_id response] (pump n after))
  /\ (current_operation c = None ->
      fst (chunk last 0) <> Error ->
      operations after = []
      /\ closed after = closed c
      /\ tx_buffer after
         = tx_buffer c ++ [first_part_packet (mode c) (after_calls 1 last) (snd (chunk last 0))]).
Proof.
  intros last after. split; [reflexivity|]. split.
  - intros busy Hb.
    assert (Ha : after = set_operations [last] c).
    { subst after. unfold reply_error. cbn [current_operation set_operations operations app].
      rewrite Hb. reflexivity. }
    rewrite Ha. split; [reflexivity|]. split; [exact Hb|]. split; [reflexivity|].
    intros n. apply served_pump. unfold served_in_order.
    cbn [current_operation set_operations operations]. rewrite Hb.
    exists 0. reflexivity.
  - intros Hidle Hok.
    assert (Ha : after = send_first_part (set_operations [last] c)).
    { subst after. unfold reply_error. cbn [current_operation set_operations operations app].
      rewrite Hidle. reflexivity. }
    rewrite Ha.
    rewrite (send_first_part_cons (set_operations [last] c) last [] _ _ _ eq_refl
               (get_data_chunk last)).
    destruct (fst (chunk last 0)); try congruence; cbn; auto.
Qed.

Lemma reply_error_discards_queue_witness :
  let after :=
    @reply_error sample R3
      (@reply sample R2 false (@reply sample R1 false busy_client)) in
  map op_id (operations after) = [3]%nat
  /\ tx_buffer (@reply_error sample R3 idle_client)
     = [ResponsePacket 200 "1.1" [AddHeader "Connection" "close"] [Byte.x33]].
Proof.
  intros after.
  destruct (@reply_error_discards_queue sample
              (@reply sample R2 false (@reply sample R1 false busy_client)) R3)
    as (_ & Hbusy & _).
  destruct (Hbusy _ eq_refl) as (Hq & _).
  destruct (@reply_error_discards_queue sample idle_client R3) as (_ & _ & Hidle).
  destruct (Hidle eq_refl) as (_ & _ & Htx); [discriminate|].
  split; [subst after; rewrite Hq; reflexivity|exact Htx].
Defined.

(** X8.  In HTTP mode a receive timeout that is not above zero in whole
    seconds gives a reply no keep-alive headers; this is so for every
    timeout of less than a second, whose seconds are rounded down to
    zero. *)
Theorem keep_alive_needs_a_second `{Collaborators} (c : HTTPServerClient)
  (response : IResponseOperation) :
  ((duration_cast_seconds (receive_timeout c) <= 0)%Z ->
   with_keep_alive c response = response)
  /\ ((0 <= receive_timeout c < ticks_per_second)%Z ->
      with_keep_alive c response = response).
Proof.
  assert (Hle : (duration_cast_seconds (receive_timeout c) <= 0)%Z ->
                with_keep_alive c response = response).
  { intros Hz. unfold with_keep_alive. destruct (mode c); [|reflexivity].
    apply Z.ltb_ge in Hz. rewrite Hz. reflexivity. }
  split; [exact Hle|].
  intros Hsmall. apply Hle. unfold duration_cast_seconds.
  rewrite Z.quot_small by exact Hsmall. lia.
Qed.

Lemma keep_alive_needs_a_second_witness :
  @with_keep_alive sample (@set_receive_timeout sample 999 idle_client) R1 = R1.
Proof.
  destruct (@keep_alive_needs_a_second sample
              (@set_receive_timeout sample 999 idle_client) R1) as [_ Hsmall].
  apply Hsmall. cbn. lia.
Defined.

(** ** Reset *)

(** X9.  [reset_client] empties the queue, drops the operation in
    progress, goes back to HTTP mode and detaches the WebSocket server, and
    leaves the transmit buffer, a closed connection and the request state as
    they are.  After it a [TransmitBufferEmptyEvent] changes nothing, a
    packet is handled as an HTTP request, and a second reset changes
    nothing. *)
Theorem reset_client_then `{Collaborators} (c : HTTPServerClient)
  (event : option HTTPPacket) :
  let fresh := reset_client c in
  operations fresh = []
  /\ current_operation fresh = None
  /\ mode fresh = HTTP
  /\ ws_server fresh = None
  /\ event_TransmitBufferEmpty fresh = fresh
  /\ event_DataAvailable event fresh = http_event event fresh
  /\ reset_client fresh = fresh
  /\ tx_buffer fresh = tx_buffer c
  /\ closed fresh = closed c
  /\ client_context fresh = client_context c
  /\ (request_headers fresh, request_parameters fresh, requested_url fresh)
     = (request_headers c, request_parameters c, requested_url c).
Proof. cbn. repeat split. Qed.

(** ** Requests *)

Section RequestFacts.

Context `{Collaborators}.

Lemma besides_pump_receive_timeout c c' :
  besides_pump c' = besides_pump c -> receive_timeout c' = receive_timeout c.
Proof. unfold besides_pump. intros [= ]. assumption. Qed.

Lemma besides_pump_request c c' :
  besides_pump c' = besides_pump c ->
  request_headers c' = request_headers c
  /\ request_parameters c' = request_parameters c
  /\ requested_url c' = requested_url c.
Proof. unfold besides_pump. intros [= ]. auto. Qed.

Lemma receive_timeout_dispatch packet first last c :
  receive_timeout (dispatch packet first last c) = receive_timeout c.
Proof.
  unfold dispatch.
  destruct (client_context c) as [context|]; [|reflexivity].
  destruct (translate_method packet) as [m|].
  - match goal with |- context [context ?call] => destruct (context call) as [m' cbs] end.
    rewrite (besides_pump_receive_timeout _ _ (besides_pump_run_callbacks _ _)).
    reflexivity.
  - apply besides_pump_receive_timeout, besides_pump_reply.
Qed.

Lemma request_dispatch packet first last c :
  request_headers (dispatch packet first last c) = request_headers c
  /\ request_parameters (dispatch packet first last c) = request_parameters c
  /\ requested_url (dispatch packet first last c) = requested_url c.
Proof.
  unfold dispatch.
  destruct (client_context c) as [context|]; [|auto].
  destruct (translate_method packet) as [m|].
  - match goal with |- context [context ?call] => destruct (context call) as [m' cbs] end.
    match goal with |- context [run_callbacks cbs ?st] =>
      destruct (besides_pump_request _ _ (besides_pump_run_callbacks cbs st))
        as (H1 & H2 & H3) end.
    rewrite H1, H2, H3. auto.
  - apply besides_pump_request, besides_pump_reply.
Qed.

Lemma first_packet_block_request packet c :
  let url := fst (separate_request_parameters (get_request_url packet)) in
  let c' := snd (first_packet_block packet c) in
  request_headers c' = packet_headers packet
  /\ request_parameters c' = snd (separate_request_parameters (get_request_url packet))
  /\ requested_url c' = snd (decode url)
  /\ mime c' = mime_reset
  /\ receive_timeout c'
     = match packet_headers packet !! "connection" with
       | Some s => if icontains s "keep-alive" then DefaultKeepAlive else receive_timeout c
       | None => receive_timeout c
       end.
Proof.
  unfold first_packet_block, parse_url.
  destruct (separate_request_parameters (get_request_url packet)) as [url params].
  cbn [fst snd]. destruct (decode url) as [res url']. cbn [snd].
  unfold set_keep_alive. cbn.
  destruct (packet_headers packet !! _) as [s|]; [|auto 6].
  destruct (icontains s _); cbn; auto 6.
Qed.

End RequestFacts.

Lemma receive_timeout_http_event `{Collaborators} (c : HTTPServerClient)
  (packet : HTTPPacket) :
  receive_timeout (http_event (Some packet) c)
  = if is_continuation packet then receive_timeout c
    else
      match packet_headers packet !! "connection" with
      | Some s => if icontains s "keep-alive" then DefaultKeepAlive else receive_timeout c
      | None => receive_timeout c
      end.
Proof.
  unfold http_event.
  destruct (is_continuation packet); cbn [negb]; [apply receive_timeout_dispatch|].
  pose proof (first_packet_block_request packet c) as Hr. cbn zeta in Hr.
  destruct (first_packet_block packet c) as [res c']. cbn [snd] in Hr.
  destruct Hr as (_ & _ & _ & _ & Ht). rewrite <- Ht.
  destruct res; [apply receive_timeout_dispatch|reflexivity].
Qed.

(** X10.  The receive timeout after [http_event] does not depend on how
    the request fares: on the first packet of a request whose [connection]
    header contains [keep-alive] it is [DefaultKeepAlive], also when the
    URL does not decode, no request context is attached or the method is
    not supported; on every other packet it is what it was. *)
Theorem keep_alive_rearmed `{Collaborators} (c : HTTPServerClient) (packet : HTTPPacket) :
  receive_timeout (http_event (Some packet) c)
  = if is_continuation packet then receive_timeout c
    else
      match packet_headers packet !! "connection" with
      | Some s => if icontains s "keep-alive" then DefaultKeepAlive else receive_timeout c
      | None => receive_timeout c
      end.
Proof. apply receive_timeout_http_event. Qed.

(** X11.  On the first packet of a request, with a request context
    attached, a path that decodes and a supported method, the context is
    called once with: the headers of the packet, the decoded path, the
    parameters of the query, the body of the packet, the MIME parser reset,
    the first flag set and the last flag as the packet has it.  Headers,
    path and parameters are still the request state when the event is
    over, whatever the context calls. *)
Theorem first_packet_handler_arguments `{Collaborators} (c : HTTPServerClient)
  (packet : HTTPPacket) (context : RequestHandler) (m : HTTPMethod) :
  is_continuation packet = false ->
  client_context c = Some context ->
  fst (decode (fst (separate_request_parameters (get_request_url packet)))) = true ->
  get_request_method packet = method_name m ->
  let path := snd (decode (fst (separate_request_parameters (get_request_url packet)))) in
  let params := snd (separate_request_parameters (get_request_url packet)) in
  let after := http_event (Some packet) c in
  handled after
  = handled c ++
    [{| h_method := m; h_url := path; h_headers := packet_headers packet;
        h_parameters := params; h_body := get_buffer packet; h_mime := mime_reset;
        h_first_part := true; h_last_part := negb (is_continued packet) |}]
  /\ request_headers after = packet_headers packet
  /\ request_parameters after = params
  /\ requested_url after = path.
Proof.
  intros Hfirst Hctx Hok Hm path params after. subst after path params.
  apply translate_method_Some in Hm.
  unfold http_event. rewrite Hfirst. cbn [negb].
  pose proof (first_packet_block_result packet c) as Hres.
  rewrite parse_url_result, Hok in Hres.
  pose proof (first_packet_block_request packet c) as Hr. cbn zeta in Hr.
  pose proof (first_packet_block_queue packet c) as Hq. cbn zeta in Hq.
  destruct (first_packet_block packet c) as [res c']. cbn [fst snd] in *. subst res.
  destruct Hr as (Hh & Hp & Hu & Hmime & _).
  destruct Hq as (_ & _ & _ & _ & Hhandled & _ & Hcontext & _).
  pose proof (request_dispatch packet true (negb (is_continued packet)) c') as Hd.
  rewrite Hh, Hp, Hu in Hd. split; [|exact Hd].
  unfold dispatch. rewrite Hcontext, Hctx, Hm.
  match goal with |- context [context ?call] => destruct (context call) as [m' cbs] end.
  rewrite (besides_pump_handled _ _ (besides_pump_run_callbacks _ _)).
  cbn. rewrite Hhandled, Hh, Hp, Hu, Hmime. reflexivity.
Qed.

Lemma first_packet_handler_arguments_witness :
  map (fun call => (h_url call, h_parameters call))
    (handled
       (@http_event sample (Some (request "POST" "/a%20b?k=v"))
          (with_context idle_client)))
  = [("/a b"%string, {["k"%string := "v"%string]})].
Proof.
  destruct (@first_packet_handler_arguments sample (with_context idle_client)
              (request "POST" "/a%20b?k=v") echo_context POST
              eq_refl eq_refl eq_refl eq_refl) as [Hh _].
  rewrite Hh. vm_compute. reflexivity.
Defined.

(** ** The query decoder *)

Lemma split_on_whole c s : absent c s -> split_on c s = [s].
Proof.
  induction s as [|a s IH]; [reflexivity|].
  intros Hs. apply absent_cons in Hs as [Ha Hs].
  simpl. apply Ascii.eqb_neq in Ha. rewrite Ha. rewrite IH by exact Hs. reflexivity.
Qed.

Lemma split_on_app c s t :
  absent c s -> split_on c (String.append s (String c t)) = s :: split_on c t.
Proof.
  induction s as [|a s IH]; intros Hs.
  - rewrite append_nil. simpl. rewrite Ascii.eqb_refl. reflexivity.
  - apply absent_cons in Hs as [Ha Hs].
    rewrite append_cons. simpl. apply Ascii.eqb_neq in Ha. rewrite Ha.
    rewrite IH by exact Hs. reflexivity.
Qed.

Lemma split_join c pieces :
  pieces <> [] -> Forall (absent c) pieces -> split_on c (join_on c pieces) = pieces.
Proof.
  induction pieces as [|piece rest IH]; intros Hne Hall; [congruence|].
  inversion Hall as [|? ? Hp Hrest]; subst.
  destruct rest as [|piece' rest].
  - cbn [join_on]. apply split_on_whole. exact Hp.
  - rewrite join_on_cons by discriminate.
    rewrite split_on_app by exact Hp.
    rewrite IH by (discriminate || exact Hrest). reflexivity.
Qed.

Lemma render_pair_key k v :
  absent "=" k ->
  has_equal_sign (render_pair (k, v)) = true
  /\ key_of (render_pair (k, v)) = k
  /\ value_of (render_pair (k, v)) = v.
Proof.
  intros Hk. unfold has_equal_sign, key_of, value_of, render_pair. cbn [fst snd].
  rewrite find_app_absent by exact Hk. cbn [find Ascii.eqb Bool.eqb at_end negb next].
  rewrite range_app. auto.
Qed.

Lemma assign_carrying_rendered kvs : forall params,
  Forall (fun kv => absent "=" (fst kv)) kvs ->
  assign_carrying EmptyString (map render_pair kvs) params
  = fold_left (fun params kv => <[fst kv := snd kv]> params) kvs params.
Proof.
  induction kvs as [|[k v] kvs IH]; intros params Hall; [reflexivity|].
  inversion Hall as [|? ? Hk Hrest]; subst. cbn [fst] in Hk.
  cbn [map assign_carrying fold_left].
  destruct (render_pair_key k v Hk) as (He & Hkey & Hval).
  rewrite He, Hkey, Hval, append_nil. apply IH. exact Hrest.
Qed.

Lemma parameter_loop_keeps (P : string -> string -> Prop) turns :
  (forall pos, at_end (find "=" pos) = false ->
     P (range pos (find "=" pos))
       (range (next (find "=" pos)) (find "&" (find "=" pos)))) ->
  forall pos params,
    map_Forall P params -> map_Forall P (parameter_loop turns pos params).
Proof.
  intros Hstep. induction turns as [|turns IH]; intros pos params Hp; [exact Hp|].
  destruct (at_end (find "=" pos)) eqn:He.
  - cbn [parameter_loop]. destruct (at_end pos); [exact Hp|].
    rewrite He. exact Hp.
  - rewrite parameter_loop_step by exact He. apply IH.
    apply map_Forall_insert_2; [apply Hstep; exact He|exact Hp].
Qed.

Lemma value_has_no_ampersand pos :
  at_end (find "=" pos) = false ->
  absent "&" (range (next (find "=" pos)) (find "&" (find "=" pos))).
Proof.
  intros He. destruct (find_head _ _ He) as [r Hr]. rewrite Hr.
  cbn [next find Ascii.eqb Bool.eqb]. apply absent_range_find.
Qed.

(** X12.  Whatever the decoder does, the string
    [separate_request_parameters] leaves has no ['?'] in it; no key of the
    parameters has an ['='] in it and no value an ['&'].  A request target
    without ['?'] is left as it is, with no parameters, and [parse_url]
    then is the decoding of the whole target. *)
Theorem separate_request_parameters_shape `{Collaborators} (url : string) :
  absent "?" (fst (separate_request_parameters url))
  /\ map_Forall (fun key value => absent "=" key /\ absent "&" value)
       (snd (separate_request_parameters url))
  /\ (absent "?" url ->
      separate_request_parameters url = (url, ∅)
      /\ parse_url url = (fst (decode url), snd (decode url), ∅)).
Proof.
  split; [|split].
  - unfold separate_request_parameters.
    destruct (negb (at_end (find "?" url)));
      match goal with |- context [find "?" ?u] =>
        destruct (at_end (find "?" u)) eqn:E; cbn [negb fst];
        [apply at_end_absent; exact E|apply absent_range_find] end.
  - assert (Hp : forall pos,
      map_Forall (fun key value => absent "=" key /\ absent "&" value) (parameters pos)).
    { intros pos. unfold parameters. apply parameter_loop_keeps.
      - intros p He. split; [apply absent_range_find|apply value_has_no_ampersand; exact He].
      - apply map_Forall_empty. }
    unfold separate_request_parameters.
    destruct (negb (at_end (find "?" url)));
      match goal with |- context [find "?" ?u] =>
        destruct (negb (at_end (find "?" u))) end;
      cbn [snd]; solve [apply Hp | apply map_Forall_empty].
  - intros Ha.
    rewrite (separate_request_parameters_plain url Ha). split; [reflexivity|].
    unfold parse_url. rewrite (separate_request_parameters_plain url Ha).
    destruct (decode url). reflexivity.
Qed.

Lemma separate_request_parameters_shape_witness :
  absent "?" "/index.html"
  /\ @parse_url sample "/index.html" = (true, "/index.html"%string, ∅).
Proof.
  split; [reflexivity|].
  destruct (@separate_request_parameters_shape sample "/index.html") as (_ & _ & Hplain).
  destruct (Hplain eq_refl) as [_ Hparse]. exact Hparse.
Defined.

(** X13.  Writing a query out and reading it back: for entries whose keys
    have no ['='] and no ['&'] and whose values have no ['&'], the loop of
    [separate_request_parameters] over [key=value] joined by ['&'] assigns
    the entries one after the other, so a later entry with the same key
    wins; with a decoder that leaves the query as it is, the request target
    gives back the path and these parameters. *)
Theorem query_round_trip `{Collaborators} (path : string) (kvs : list (string * string)) :
  Forall (fun kv => absent "=" (fst kv) /\ absent "&" (fst kv) /\ absent "&" (snd kv)) kvs ->
  parameters (render_query kvs) = assign_all kvs
  /\ (absent "?" path ->
      snd (decode (String "?" (render_query kvs))) = String "?" (render_query kvs) ->
      separate_request_parameters (String.append path (String "?" (render_query kvs)))
      = (path, assign_all kvs)).
Proof.
  intros Hall.
  assert (Hround : parameters (render_query kvs) = assign_all kvs).
  { rewrite parameters_pairs. unfold render_query, assign_all.
    destruct kvs as [|kv kvs]; [reflexivity|].
    rewrite split_join.
    - apply assign_carrying_rendered.
      eapply Forall_impl; [exact Hall|]. intros kv' (Hk & _). exact Hk.
    - discriminate.
    - apply Forall_map. eapply Forall_impl; [exact Hall|].
      intros [k v] (_ & Hk & Hv). unfold render_pair. cbn [fst snd] in *.
      apply absent_app; [exact Hk|]. unfold absent. cbn [find Ascii.eqb Bool.eqb].
      exact Hv. }
  split; [exact Hround|].
  intros Hp Hd.
  rewrite (separate_request_parameters_query path _ _ Hp Hd), Hround. reflexivity.
Qed.

Lemma query_round_trip_witness :
  @separate_request_parameters sample "/search?q=rocq&lang=en&q=coq"
  = ("/search"%string,
     <["q"%string := "coq"%string]>
       (<["lang"%string := "en"%string]> (<["q"%string := "rocq"%string]> ∅))).
Proof.
  destruct (@query_round_trip sample "/search"
              [("q", "rocq"); ("lang", "en"); ("q", "coq")]%string) as [_ Hsep].
  - repeat constructor.
  - exact (Hsep eq_refl eq_refl).
Defined.



(** ** The two modes *)

Section ModeFacts.

Context `{Collaborators}.

Lemma besides_pump_event_TransmitBufferEmpty c :
  besides_pump (event_TransmitBufferEmpty c) = besides_pump c.
Proof.
  unfold event_TransmitBufferEmpty.
  destruct (current_operation c) as [op|]; [|apply besides_pump_send_first_part].
  destruct (get_data content_chunk_size op) as [[res data] op'].
  destruct res; try reflexivity.
  rewrite besides_pump_send_first_part. reflexivity.
Qed.

Lemma besides_pump_run_callback c cb : besides_pump (run_callback c cb) = besides_pump c.
Proof. destruct cb; [apply besides_pump_reply|apply besides_pump_reply_error]. Qed.

Lemma besides_pump_websocket_event_request event c :
  handled (websocket_event event c) = handled c
  /\ receive_timeout (websocket_event event c) = receive_timeout c
  /\ (request_headers (websocket_event event c),
      request_parameters (websocket_event event c),
      requested_url (websocket_event event c))
     = (request_headers c, request_parameters c, requested_url c).
Proof.
  assert (Hb : forall c', besides_pump c' = besides_pump c ->
    handled c' = handled c
    /\ receive_timeout c' = receive_timeout c
    /\ (request_headers c', request_parameters c', requested_url c')
       = (request_headers c, request_parameters c, requested_url c)).
  { intros c' Hc'.
    destruct (besides_pump_request _ _ Hc') as (H1 & H2 & H3).
    rewrite (besides_pump_handled _ _ Hc'), (besides_pump_receive_timeout _ _ Hc').
    rewrite H1, H2, H3. auto. }
  destruct event as [packet|]; [|auto]. unfold websocket_event.
  destruct (OpCode_Close <=? ws_control_code packet)%N.
  - destruct (ws_control_code packet =? OpCode_Close)%N; [auto|].
    destruct (ws_control_code packet =? OpCode_Ping)%N; [|auto].
    apply Hb, besides_pump_reply.
  - destruct (ws_server c) as [server|]; [|auto].
    match goal with |- context [run_callbacks ?cbs ?st] =>
      pose proof (besides_pump_run_callbacks cbs st) as Hr end.
    destruct (besides_pump_request _ _ Hr) as (H1 & H2 & H3).
    rewrite (besides_pump_handled _ _ Hr), (besides_pump_receive_timeout _ _ Hr).
    rewrite H1, H2, H3. auto.
Qed.

Lemma received_http_event event c : received (http_event event c) = received c.
Proof.
  destruct event as [packet|]; [|reflexivity]. unfold http_event.
  assert (Hd : forall first last c', received (dispatch packet first last c') = received c').
  { intros first last c'. unfold dispatch.
    destruct (client_context c') as [context|]; [|reflexivity].
    destruct (translate_method packet) as [m|].
    - match goal with |- context [context ?call] => destruct (context call) as [m' cbs] end.
      rewrite (besides_pump_received _ _ (besides_pump_run_callbacks _ _)). reflexivity.
    - apply besides_pump_received, besides_pump_reply. }
  destruct (is_continuation packet); cbn [negb]; [apply Hd|].
  pose proof (first_packet_block_queue packet c) as Hq. cbn zeta in Hq.
  destruct (first_packet_block packet c) as [res c']. cbn [snd] in Hq.
  destruct Hq as (_ & _ & _ & _ & _ & Hr & _).
  destruct res; [rewrite Hd|]; exact Hr.
Qed.

Lemma mode_handle_event c e : mode (handle_event c e) = mode c.
Proof. apply (carries_on_handle_event c e). Qed.

Lemma receive_timeout_handle_event c e :
  receive_timeout (handle_event c e) = receive_timeout c
  \/ receive_timeout (handle_event c e) = DefaultKeepAlive.
Proof.
  destruct e as [event| | | |cb]; cbn [handle_event].
  - unfold event_DataAvailable. destruct (mode c).
    + destruct event as [packet|]; [|left; reflexivity].
      rewrite receive_timeout_http_event.
      destruct (is_continuation packet); [left; reflexivity|].
      destruct (packet_headers packet !! _) as [s|]; [|left; reflexivity].
      destruct (icontains s _); [right|left]; reflexivity.
    + left. apply besides_pump_websocket_event_request.
  - left. apply besides_pump_receive_timeout, besides_pump_event_TransmitBufferEmpty.
  - right. reflexivity.
  - left. reflexivity.
  - left. apply besides_pump_receive_timeout, besides_pump_run_callback.
Qed.

End ModeFacts.

(** X15.  The two modes keep to their own handler.  Under every sequence
    of events and calls, a connection in HTTP mode never calls the
    WebSocket server, and a connection in WebSocket mode never calls the
    request context and never touches the headers, parameters and URL of
    the last request. *)
Theorem run_keeps_to_its_mode `{Collaborators} (events : list Event)
  (c : HTTPServerClient) :
  (mode c = HTTP -> received (run events c) = received c)
  /\ (mode c = Websocket ->
      handled (run events c) = handled c
      /\ (request_headers (run events c), request_parameters (run events c),
          requested_url (run events c))
         = (request_headers c, request_parameters c, requested_url c)).
Proof.
  unfold run. revert c.
  induction events as [|e events IH]; intros c; [auto|].
  cbn [fold_left]. destruct (IH (handle_event c e)) as [IHh IHw].
  rewrite mode_handle_event in IHh, IHw.
  split.
  - intros Hm. rewrite IHh by exact Hm.
    destruct e as [event| | | |cb]; cbn [handle_event]; try reflexivity.
    + unfold event_DataAvailable. rewrite Hm. apply received_http_event.
    + apply besides_pump_received, besides_pump_event_TransmitBufferEmpty.
    + apply besides_pump_received, besides_pump_run_callback.
  - intros Hm. destruct (IHw Hm) as [Hh Hr]. rewrite Hh, Hr.
    assert (Hb : forall c', besides_pump c' = besides_pump c ->
      handled c' = handled c
      /\ (request_headers c', request_parameters c', requested_url c')
         = (request_headers c, request_parameters c, requested_url c)).
    { intros c' Hc'.
      destruct (besides_pump_request _ _ Hc') as (H1 & H2 & H3).
      rewrite (besides_pump_handled _ _ Hc'), H1, H2, H3. auto. }
    destruct e as [event| | | |cb]; cbn [handle_event]; auto.
    + unfold event_DataAvailable. rewrite Hm.
      destruct (besides_pump_websocket_event_request event c) as (H1 & _ & H2). auto.
    + apply Hb, besides_pump_event_TransmitBufferEmpty.
    + apply Hb, besides_pump_run_callback.
Qed.

Lemma run_keeps_to_its_mode_witness :
  received
    (@run sample
       [DataAvailable (Some (frame 1)); DataAvailable (Some (request "GET" "/a"))]
       (with_context idle_client))
  = []
  /\ handled
       (@run sample
          [DataAvailable (Some (request "GET" "/a")); DataAvailable (Some (frame 1))]
          websocket_client)
     = [].
Proof.
  split.
  - exact (proj1 (@run_keeps_to_its_mode sample _ (with_context idle_client)) eq_refl).
  - exact (proj1 (proj2 (@run_keeps_to_its_mode sample _ websocket_client) eq_refl)).
Defined.

(** X16.  The engine sets the receive timeout of the socket to nothing
    but [DefaultKeepAlive]: under every sequence of events and calls the
    timeout is what it was at the start or [DefaultKeepAlive], and once the
    socket is connected it is [DefaultKeepAlive] from then on. *)
Theorem receive_timeout_is_default `{Collaborators} (events : list Event)
  (c : HTTPServerClient) :
  (receive_timeout (run events c) = receive_timeout c
   \/ receive_timeout (run events c) = DefaultKeepAlive)
  /\ receive_timeout (run events (connected c)) = DefaultKeepAlive.
Proof.
  assert (Hrun : forall c' : HTTPServerClient,
    receive_timeout (run events c') = receive_timeout c'
    \/ receive_timeout (run events c') = DefaultKeepAlive).
  { unfold run. induction events as [|e events IH]; intros c'; [left; reflexivity|].
    cbn [fold_left].
    destruct (IH (handle_event c' e)) as [Hs | Hd]; [|right; exact Hd].
    rewrite Hs. apply receive_timeout_handle_event. }
  split; [apply Hrun|].
  destruct (Hrun (connected c)) as [Hs | Hd]; [rewrite Hs; reflexivity|exact Hd].
Qed.
